(** * smalldb: an in-memory string-keyed store mirrored to one JSON file

    A shallow embedding of [db.go], of the helpers [readData], [writeData]
    and [cloneMap], and of the transaction type [Tx], followed by the
    properties of the store that the specification states.

    Go values that have identity are kept in an explicit store: a value of
    type [map[string]T] is either [nil] or a reference to a map object in
    the heap, and assignments copy the reference, as in Go.  The operating
    system and [encoding/json] are outside the repository; they appear as a
    file-system model and as an interface ([JSON]) respectively. *)

From stdpp Require Import base option list gmap sets strings sorting.
From Stdlib.Strings Require Import Byte.

(** ** Errors *)

Inductive error : Type :=
  | ErrNotExist            (* ENOENT                                   *)
  | ErrExist               (* EEXIST                                   *)
  | ErrPermission          (* EACCES                                   *)
  | ErrIsDir               (* EISDIR                                   *)
  | ErrNotDir              (* ENOTDIR                                  *)
  | ErrNoSpace             (* ENOSPC, a write that stopped half-way    *)
  | ErrDecode              (* json.Unmarshal: syntax or type error     *)
  | ErrEncode              (* json: unsupported type or value          *)
  | ErrBatch (code : nat). (* a failure returned by a batch function   *)

(** [os.IsNotExist] *)
Definition IsNotExist (err : error) : bool :=
  match err with ErrNotExist => true | _ => false end.

(** ** The file system *)

Abbreviation bytes := (list byte).

(** A path is the list of its components below the working directory;
    [[]] is that directory itself. *)
Abbreviation path := (list string).

(** [filepath.Dir]: all but the last element of the path. *)
Definition Dir (p : path) : path := removelast p.

Record filesystem : Type := FileSystem {
  files  : gmap path bytes;  (* regular files and their content          *)
  dirs   : gset path;        (* directories, besides the working one     *)
  denied : gset path;        (* entries the process may not open or
                                create entries in                        *)
  quota  : option nat        (* when [Some n]: a write transfers at most
                                [n] bytes and then fails                 *)
}.

Definition is_dir (fs : filesystem) (p : path) : bool :=
  bool_decide (p = []) || bool_decide (p ∈ dirs fs).

Definition set_files (f : gmap path bytes → gmap path bytes)
    (fs : filesystem) : filesystem :=
  {| files := f (files fs); dirs := dirs fs;
     denied := denied fs; quota := quota fs |}.

Definition set_dirs (f : gset path → gset path)
    (fs : filesystem) : filesystem :=
  {| files := files fs; dirs := f (dirs fs);
     denied := denied fs; quota := quota fs |}.

(** [os.Mkdir] of one directory whose parent is [Dir p]. *)
Definition Mkdir (p : path) (fs : filesystem) : error + filesystem :=
  if is_dir fs p then inl ErrExist
  else if bool_decide (is_Some (files fs !! p)) then inl ErrNotDir
  else if negb (is_dir fs (Dir p)) then inl ErrNotExist
  else if bool_decide (Dir p ∈ denied fs) then inl ErrPermission
  else inr (set_dirs (λ d, {[p]} ∪ d) fs).

(** [os.MkdirAll]: nothing to do when [p] is a directory already, an error
    when it is a file, and otherwise the parents first and then [p].  The
    walk goes down from the working directory over the components of [p];
    [pre] is the part that has been secured.  When a component cannot be
    made, the directories made before it stay: the error comes with the
    device as it has been left. *)
Fixpoint mkdir_from (pre : path) (rest : list string) (fs : filesystem)
    : (error * filesystem) + filesystem :=
  match rest with
  | [] => inr fs
  | c :: rest' =>
      let cur := pre ++ [c] in
      if is_dir fs cur then mkdir_from cur rest' fs
      else match Mkdir cur fs with
           | inl err => inl (err, fs)
           | inr fs' => mkdir_from cur rest' fs'
           end
  end.

Definition MkdirAll (p : path) (fs : filesystem)
    : (error * filesystem) + filesystem :=
  if is_dir fs p then inr fs
  else if bool_decide (is_Some (files fs !! p)) then inl (ErrNotDir, fs)
  else mkdir_from [] p fs.

(** Nothing exists at [p]. *)
Definition absent (fs : filesystem) (p : path) : Prop :=
  is_dir fs p = false ∧ files fs !! p = None.

(** [p] is a regular file that the process may open, with content [b]. *)
Definition holds (fs : filesystem) (p : path) (b : bytes) : Prop :=
  is_dir fs p = false ∧ files fs !! p = Some b ∧ p ∉ denied fs.

(** [ioutil.ReadFile] *)
Definition ReadFile (p : path) (fs : filesystem) : error + bytes :=
  if is_dir fs p then inl ErrIsDir
  else match files fs !! p with
       | None => inl ErrNotExist
       | Some content =>
           if bool_decide (p ∈ denied fs) then inl ErrPermission
           else inr content
       end.

(** [os.OpenFile(p, O_WRONLY|O_CREATE|O_TRUNC, 0644)].  The handle that Go
    returns is represented by the path it was opened on. *)
Definition OpenFile_create_trunc (p : path) (fs : filesystem)
    : error + filesystem :=
  if is_dir fs p then inl ErrIsDir
  else if negb (is_dir fs (Dir p)) then inl ErrNotExist
  else if bool_decide (p ∈ denied fs) then inl ErrPermission
  else match files fs !! p with
       | Some _ => inr (set_files (λ f, <[p := []]> f) fs)
       | None =>
           if bool_decide (Dir p ∈ denied fs) then inl ErrPermission
           else inr (set_files (λ f, <[p := []]> f) fs)
       end.

(** [File.Write] on a handle opened as above: the bytes go to the end
    of the file; with a quota only a prefix may arrive. *)
Definition Write (p : path) (b : bytes) (fs : filesystem)
    : filesystem * option error :=
  let append (b' : bytes) :=
    set_files (λ f, <[p := default [] (f !! p) ++ b']> f) fs in
  match quota fs with
  | Some n =>
      if bool_decide (n < length b) then (append (take n b), Some ErrNoSpace)
      else (append b, None)
  | None => (append b, None)
  end.

(** ** The element type and its JSON encoding *)

(** The zero value of a Go type, returned by a map read of a missing key. *)
Class GoType (T : Type) := zero : T.

(** What [json.Unmarshal] makes of a document when the target is a
    [map[string]T]: an error, the JSON value [null], or an object. *)
Inductive decoded (T : Type) : Type :=
  | DecErr
  | DecNull
  | DecObj (m : gmap string T).
Arguments DecErr {T}.
Arguments DecNull {T}.
Arguments DecObj {T} m.

(** [encoding/json] at the type [map[string]T].  [json_marshal] is the
    indented text of a map value ([None] is the nil map), or nothing when
    some value cannot be encoded. *)
Class JSON (T : Type) := {
  json_marshal : option (gmap string T) → option bytes;
  json_unmarshal : bytes → decoded T
}.

Definition newline : byte := x0a.

(** ** The Go heap and the state monad *)

(** A map value: nil, or the address of a map object. *)
Abbreviation mapref := (option nat).

Section Store.
Context {T : Type} `{!GoType T, !JSON T}.

Record world : Type := World {
  heap : list (gmap string T);  (* the map objects, by address *)
  disk : filesystem
}.

(** The outcome of a call: it returns, or the goroutine panics. *)
Inductive result (A : Type) : Type :=
  | Ok (a : A) (w : world)
  | Panic.
Arguments Ok {A} a w.
Arguments Panic {A}.

Definition M (A : Type) : Type := world → result A.

Definition ret {A} (a : A) : M A := λ w, Ok a w.

Definition bind {A B} (m : M A) (k : A → M B) : M B :=
  λ w, match m w with
       | Ok a w' => k a w'
       | Panic => Panic
       end.

Notation "'let!' x ':=' m 'in' k" := (bind m (λ x, k))
  (at level 10, x pattern, m at level 100, k at level 200).

Definition set_heap (f : list (gmap string T) → list (gmap string T))
    (w : world) : world :=
  {| heap := f (heap w); disk := disk w |}.

Definition set_disk (fs : filesystem) (w : world) : world :=
  {| heap := heap w; disk := fs |}.

(** The mapping a map value stands for. *)
Definition contents (h : list (gmap string T)) (r : mapref)
    : gmap string T :=
  match r with
  | None => ∅
  | Some l => default ∅ (h !! l)
  end.

(** The Go value of a map variable, as the JSON encoder is handed it. *)
Definition map_value (h : list (gmap string T)) (r : mapref)
    : option (gmap string T) :=
  match r with
  | None => None
  | Some _ => Some (contents h r)
  end.

(** [make(map[string]T, n)] *)
Definition make_map : M mapref :=
  λ w, Ok (Some (length (heap w))) (set_heap (λ h, h ++ [∅]) w).

(** [value, exists := m[key]] *)
Definition map_index (m : mapref) (key : string) : M (T * bool) :=
  λ w, match contents (heap w) m !! key with
       | Some value => Ok (value, true) w
       | None => Ok (zero, false) w
       end.

(** [m[key] = value]; an assignment to an entry of a nil map panics. *)
Definition map_assign (m : mapref) (key : string) (value : T) : M unit :=
  λ w, match m with
       | None => Panic
       | Some l =>
           match heap w !! l with
           | None => Panic
           | Some o => Ok tt (set_heap (λ h, <[l := <[key := value]> o]> h) w)
           end
       end.

(** [delete(m, key)]; a no-op on a nil map and on a missing key. *)
Definition map_delete (m : mapref) (key : string) : M unit :=
  λ w, match m with
       | None => Ok tt w
       | Some l =>
           match heap w !! l with
           | None => Ok tt w
           | Some o => Ok tt (set_heap (λ h, <[l := delete key o]> h) w)
           end
       end.

(** The entries that [for k, v := range m] visits. *)
Definition map_range (m : mapref) : M (list (string * T)) :=
  λ w, Ok (map_to_list (contents (heap w) m)) w.

(** [for k, v := range ... { dst[k] = v }] *)
Fixpoint copy_entries (entries : list (string * T)) (dst : mapref)
    : M unit :=
  match entries with
  | [] => ret tt
  | (k, v) :: rest =>
      let! _ := map_assign dst k v in
      copy_entries rest dst
  end.

(** ** System and library calls in the monad *)

Definition os_MkdirAll (p : path) : M (option error) :=
  λ w, match MkdirAll p (disk w) with
       | inl (err, fs) => Ok (Some err) (set_disk fs w)
       | inr fs => Ok None (set_disk fs w)
       end.

Definition ioutil_ReadFile (p : path) : M (error + bytes) :=
  λ w, Ok (ReadFile p (disk w)) w.

Definition os_OpenFile (p : path) : M (error + path) :=
  λ w, match OpenFile_create_trunc p (disk w) with
       | inl err => Ok (inl err) w
       | inr fs => Ok (inr p) (set_disk fs w)
       end.

Definition file_Write (file : path) (b : bytes) : M (option error) :=
  λ w, let '(fs, err) := Write file b (disk w) in Ok err (set_disk fs w).

(** [json.NewEncoder(file)] with [SetIndent], then [Encode(data)]: the
    value is marshalled first, and the text and a newline go out in one
    write; when marshalling fails nothing is written. *)
Definition Encoder_Encode (file : path) (data : mapref) : M (option error) :=
  λ w, match json_marshal (map_value (heap w) data) with
       | None => Ok (Some ErrEncode) w
       | Some b => file_Write file (b ++ [newline]) w
       end.

(** [json.Unmarshal(fileData, &data)]: [null] sets the variable to nil; an
    object is stored into the map that the variable refers to (a new map
    when it is nil), on top of the entries already there. *)
Definition json_Unmarshal (fileData : bytes) (data : mapref)
    : M (mapref * option error) :=
  match json_unmarshal fileData with
  | DecErr => ret (data, Some ErrDecode)
  | DecNull => ret (None, None)
  | DecObj m =>
      match data with
      | None =>
          λ w, Ok (Some (length (heap w)), None) (set_heap (λ h, h ++ [m]) w)
      | Some l =>
          λ w, Ok (data, None)
                  (set_heap (λ h, <[l := m ∪ contents h data]> h) w)
      end
  end.

(** ** The helpers: [readData], [writeData], [cloneMap] *)

(** [readData] reads the JSON data from the file into a map.  The second
    component is Go's [error] result; the map is nil when it is set. *)
Definition readData (filepath : path) : M (mapref * option error) :=
  let! data := make_map in
  let! r := ioutil_ReadFile filepath in
  match r with
  | inl err =>
      if IsNotExist err then ret (data, None)
      else ret (None, Some err)
  | inr fileData =>
      if bool_decide (length fileData = 0) then ret (data, None)
      else
        let! (data, err) := json_Unmarshal fileData data in
        match err with
        | Some err => ret (None, Some err)
        | None => ret (data, None)
        end
  end.

(** [writeData] writes the JSON data to the file.  The deferred
    [file.Close] has no effect on the content. *)
Definition writeData (filepath : path) (data : mapref) : M (option error) :=
  let! r := os_OpenFile filepath in
  match r with
  | inl err => ret (Some err)
  | inr file =>
      let! err := Encoder_Encode file data in
      match err with
      | Some err => ret (Some err)
      | None => ret None
      end
  end.

(** [cloneMap] creates a shallow copy of the map. *)
Definition cloneMap (original : mapref) : M mapref :=
  let! copy := make_map in
  let! entries := map_range original in
  let! _ := copy_entries entries copy in
  ret copy.

(** ** The store *)

(** The struct [DB]; the mutex [mu] is left out, calls are taken one at a
    time. *)
Record DB : Type := mkDB {
  filepath : path;
  data : mapref
}.

(** [Open] initializes the database at the given file path. *)
Definition Open (fp : path) : M (option DB * option error) :=
  let! err := os_MkdirAll (Dir fp) in
  match err with
  | Some err => ret (None, Some err)
  | None =>
      let! (data, err) := readData fp in
      match err with
      | Some err => ret (None, Some err)
      | None => ret (Some {| filepath := fp; data := data |}, None)
      end
  end.

(** [persist] writes the in-memory data to the JSON file. *)
Definition DB_persist (db : DB) : M (option error) :=
  writeData (filepath db) (data db).

(** [Get] retrieves the value associated with the given key. *)
Definition DB_Get (db : DB) (key : string) : M (T * bool) :=
  let! (value, exists_) := map_index (data db) key in
  ret (value, exists_).

(** [Set] sets the value for the given key. *)
Definition DB_Set (db : DB) (key : string) (value : T) : M (option error) :=
  let! _ := map_assign (data db) key value in
  DB_persist db.

(** [Delete] removes the value associated with the given key. *)
Definition DB_Delete (db : DB) (key : string) : M (option error) :=
  let! _ := map_delete (data db) key in
  DB_persist db.

(** [GetAll] returns a copy of all key-value pairs in the database. *)
Definition DB_GetAll (db : DB) : M mapref :=
  let! dataCopy := make_map in
  let! entries := map_range (data db) in
  let! _ := copy_entries entries dataCopy in
  ret dataCopy.

(** ** Transactions *)

(** The struct [Tx]; its field [db] is never read. *)
Record Tx : Type := mkTx {
  tx_db : DB;
  tx_data : mapref
}.

Definition Tx_Get (tx : Tx) (key : string) : M (T * bool) :=
  let! (value, exists_) := map_index (tx_data tx) key in
  ret (value, exists_).

Definition Tx_Set (tx : Tx) (key : string) (value : T) : M unit :=
  map_assign (tx_data tx) key value.

Definition Tx_Delete (tx : Tx) (key : string) : M unit :=
  map_delete (tx_data tx) key.

(** A batch function [func(tx *Tx[T]) error], as the calls it makes on the
    transaction it is handed and the error it returns at the end.  What it
    does next may depend on every answer of [Tx.Get]. *)
Inductive batch : Type :=
  | Return (err : option error)
  | CallGet (key : string) (next : T * bool → batch)
  | CallSet (key : string) (value : T) (next : batch)
  | CallDelete (key : string) (next : batch).

(** [fn(tx)] *)
Fixpoint call (fn : batch) (tx : Tx) : M (option error) :=
  match fn with
  | Return err => ret err
  | CallGet key next =>
      let! r := Tx_Get tx key in
      call (next r) tx
  | CallSet key value next =>
      let! _ := Tx_Set tx key value in
      call next tx
  | CallDelete key next =>
      let! _ := Tx_Delete tx key in
      call next tx
  end.

(** [Transaction] executes multiple operations atomically.  The receiver
    is a pointer, so the store as it is after the call is returned along
    with the error. *)
Definition DB_Transaction (db : DB) (fn : batch) : M (DB * option error) :=
  let! tx_data := cloneMap (data db) in
  let tx := {| tx_db := db; tx_data := tx_data |} in
  let! err := call fn tx in
  match err with
  | Some err => ret (db, Some err)
  | None =>
      (* Commit changes *)
      let db := {| filepath := filepath db; data := tx_data |} in
      let! err := DB_persist db in
      ret (db, err)
  end.

(** ** Vocabulary of the properties *)

(** A map value is live when it is nil or the address of an allocated map
    object; every map value that the functions above hand out is. *)
Definition live (w : world) (m : mapref) : Prop :=
  match m with
  | Some l => l < length (heap w)
  | None => True
  end.

(** The three mutating calls of the store, as one type. *)
Inductive mutation : Type :=
  | MSet (key : string) (value : T)
  | MDelete (key : string)
  | MTransaction (fn : batch).

Definition mutate (db : DB) (mu : mutation) : M (DB * option error) :=
  match mu with
  | MSet key value => let! err := DB_Set db key value in ret (db, err)
  | MDelete key => let! err := DB_Delete db key in ret (db, err)
  | MTransaction fn => DB_Transaction db fn
  end.

(** What a batch function does to the mapping of its working copy, and
    what it returns. *)
Fixpoint batch_result (fn : batch) (m : gmap string T)
    : gmap string T * option error :=
  match fn with
  | Return err => (m, err)
  | CallGet key next =>
      batch_result
        (next match m !! key with
              | Some value => (value, true)
              | None => (zero, false)
              end) m
  | CallSet key value next => batch_result next (<[key := value]> m)
  | CallDelete key next => batch_result next (delete key m)
  end.

(** The mapping a mutating call aims at, from the mapping it starts on,
    and the failure of its batch function if there is one. *)
Definition effect (mu : mutation) (m : gmap string T)
    : gmap string T * option error :=
  match mu with
  | MSet key value => (<[key := value]> m, None)
  | MDelete key => (delete key m, None)
  | MTransaction fn => batch_result fn m
  end.

(** The mapping that a decoded document stands for; [null] stands for the
    nil map, which has no entries. *)
Definition mapping_of (dec : decoded T) : option (gmap string T) :=
  match dec with
  | DecErr => None
  | DecNull => Some ∅
  | DecObj m => Some m
  end.

(** The text of a map value converts back without loss: what
    [json_marshal] emits for it, followed by the newline of the encoder,
    unmarshals to the value it came from. *)
Definition round_trips (v : option (gmap string T)) : Prop :=
  ∀ b, json_marshal v = Some b →
       json_unmarshal (b ++ [newline])
       = match v with
         | Some m => DecObj m
         | None => DecNull
         end.

(** The element type converts to the text and back without loss. *)
Definition JSONLossless : Prop := ∀ v, round_trips v.

(** The file at the location holds the text of the mapping in memory:
    memory and device are consistent. *)
Definition mirrors (db : DB) (w : world) : Prop :=
  ∃ b, json_marshal (map_value (heap w) (data db)) = Some b ∧
       files (disk w) !! filepath db = Some (b ++ [newline]).

(** ** Callers *)

(** The loop [for k, v := range users { _ = db.Set(k, v) }] of the tests,
    over the entries in the order in which the range visits them; the
    error of each call is dropped, as there. *)
Fixpoint set_each (db : DB) (entries : list (string * T)) : M unit :=
  match entries with
  | [] => ret tt
  | (k, v) :: rest =>
      let! _ := DB_Set db k v in
      set_each db rest
  end.

(** A call of a caller that only writes. *)
Inductive op : Type :=
  | OpSet (key : string) (value : T)
  | OpDelete (key : string).

(** The calls made one after the other on the store, errors dropped. *)
Fixpoint do_each (db : DB) (ops : list op) : M unit :=
  match ops with
  | [] => ret tt
  | OpSet key value :: rest =>
      let! _ := DB_Set db key value in
      do_each db rest
  | OpDelete key :: rest =>
      let! _ := DB_Delete db key in
      do_each db rest
  end.

(** The batch function that makes the same calls on its transaction and
    returns nil. *)
Fixpoint batch_of_ops (ops : list op) : batch :=
  match ops with
  | [] => Return None
  | OpSet key value :: rest => CallSet key value (batch_of_ops rest)
  | OpDelete key :: rest => CallDelete key (batch_of_ops rest)
  end.

(** What a call does to a mapping. *)
Definition apply_op (m : gmap string T) (o : op) : gmap string T :=
  match o with
  | OpSet key value => <[key := value]> m
  | OpDelete key => delete key m
  end.

End Store.

Arguments world T : clear implicits.
Arguments result T A : clear implicits.
Arguments M T A : clear implicits.
Arguments batch T : clear implicits.
Arguments mutation T : clear implicits.
Arguments JSONLossless T {_}.
Arguments round_trips {T _} v.
Arguments mapping_of {T} dec.
Arguments mirrors {T _} db w.
Arguments Ok {T A} a w.
Arguments Panic {T A}.
Arguments World {T} heap disk.
Arguments Return {T} err.
Arguments CallGet {T} key next.
Arguments CallSet {T} key value next.
Arguments CallDelete {T} key next.
Arguments MSet {T} key value.
Arguments MDelete {T} key.
Arguments MTransaction {T} fn.
Arguments op T : clear implicits.
Arguments OpSet {T} key value.
Arguments OpDelete {T} key.

(** ** Two element types *)

(** Go's [int], with a reference encoding that is lossless: the document
    is the binary numeral of the code that [Countable] gives the value,
    one digit per byte.  It is not the text of [encoding/json], and it is
    more faithful than that: it keeps every key byte for byte and every
    integer of any size.  It serves to run the store on examples, and to
    show that a lossless encoding exists; what [encoding/json] does to
    keys is in [KeyStore] below. *)
Fixpoint pos_to_bytes (p : positive) : bytes :=
  match p with
  | xH => []
  | xO p => x30 :: pos_to_bytes p
  | xI p => x31 :: pos_to_bytes p
  end.

Fixpoint bytes_to_pos (b : bytes) : option positive :=
  match b with
  | [] => None
  | x0a :: [] => Some xH
  | x30 :: b => xO <$> bytes_to_pos b
  | x31 :: b => xI <$> bytes_to_pos b
  | _ => None
  end.

Module IntStore.

#[export] Instance int_zero : GoType Z := 0%Z.

#[export] Instance int_json : JSON Z := {
  json_marshal v := Some (pos_to_bytes (encode v));
  json_unmarshal b :=
    match bytes_to_pos b ≫= decode with
    | Some (Some m) => DecObj m
    | Some None => DecNull
    | None => DecErr
    end
}.

(** A device with nothing on it and no restrictions. *)
Definition blank : filesystem :=
  {| files := ∅; dirs := ∅; denied := ∅; quota := None |}.

(** A device on which a write stops after three bytes. *)
Definition cramped : filesystem :=
  {| files := ∅; dirs := ∅; denied := ∅; quota := Some 3 |}.

Definition location : path := ["data"; "db.json"].

(** The state before the store is opened, and the store and the state
    that [Open location] makes of it. *)
Definition initial : world Z := World [] blank.

Definition db0 : DB := {| filepath := location; data := Some 0 |}.

Definition opened : world Z :=
  World [∅] (set_dirs (λ _, {[ ["data"] ]}) blank).

(** A store at the top of a cramped device. *)
Definition db1 : DB := {| filepath := ["db.json"]; data := Some 0 |}.

Definition opened_cramped : world Z := World [∅] cramped.

(** The document that the reference encoding makes of a mapping. *)
Definition text (m : gmap string Z) : bytes :=
  pos_to_bytes (encode (Some m)) ++ [newline].

(** The state after [Set("a", 1)] on the opened store, and after a
    [Delete("a")] that follows. *)
Definition after_set : world Z :=
  World [{["a" := 1%Z]}]
        (set_files (λ f, <[location := text {["a" := 1%Z]}]> f)
                   (disk opened)).

Definition after_delete : world Z :=
  World [∅] (set_files (λ f, <[location := text ∅]> f) (disk opened)).

(** The state after [Set("a", 1)] on the cramped device: the mapping is
    the new one, the file has the first three bytes of its text. *)
Definition after_short_write : world Z :=
  World [{["a" := 1%Z]}]
        (set_files (λ f, <[ ["db.json"] := take 3 (text {["a" := 1%Z]})]> f)
                   cramped).

(** The batch function of the scenario in the specification, and one
    that gives up after its first two calls. *)
Definition scenario : batch Z :=
  CallSet "a" 1%Z (CallSet "b" 2%Z (CallDelete "a" (Return None))).

Definition giving_up : batch Z :=
  CallSet "a" 1%Z (CallDelete "b" (Return (Some (ErrBatch 7)))).

(** The states after [Set("b", 2)] on the opened store, after
    [Set("a", 1)] and [Set("b", 2)], and after [Set("a", 5)]. *)
Definition after_set_b : world Z :=
  World [{["b" := 2%Z]}]
        (set_files (λ f, <[location := text {["b" := 2%Z]}]> f)
                   (disk opened)).

Definition after_both : world Z :=
  World [<["b" := 2%Z]> {["a" := 1%Z]}]
        (set_files
           (λ f, <[location := text (<["b" := 2%Z]> {["a" := 1%Z]})]> f)
           (disk opened)).

Definition after_set5 : world Z :=
  World [{["a" := 5%Z]}]
        (set_files (λ f, <[location := text {["a" := 5%Z]}]> f)
                   (disk opened)).

(** A store whose map is nil, as [Open] returns it for a file that holds
    [null]. *)
Definition db_nil : DB := {| filepath := location; data := None |}.

(** A device on which the location is a directory. *)
Definition location_is_dir : filesystem :=
  set_dirs (λ _, {[ ["data"]; location ]}) blank.

(** The state after [Set("a", 1)], on a device that has since denied the
    process the file. *)
Definition locked : world Z :=
  World [{["a" := 1%Z]}]
        {| files := {[ location := text {["a" := 1%Z]} ]};
           dirs := {[ ["data"] ]};
           denied := {[ location ]};
           quota := None |}.

(** The cramped store after [Set("a", 1)] has put the entry in the map
    and before it writes. *)
Definition assigned_cramped : world Z := World [{["a" := 1%Z]}] cramped.

(** A device on which directories can be made at the top and not inside
    ["a"], and a location two directories down. *)
Definition guarded : filesystem :=
  {| files := ∅; dirs := ∅; denied := {[ ["a"] ]}; quota := None |}.

Definition deep : path := ["a"; "b"; "db.json"].

(** A device on which the file holds the text of the nil map, [null]. *)
Definition null_text : bytes :=
  pos_to_bytes (encode (@None (gmap string Z))) ++ [newline].

Definition with_null : filesystem :=
  set_files (λ f, <[location := null_text]> f) (disk opened).

(** The entries of a map of two users, in some order, and three calls. *)
Definition users : gmap string Z := <["b" := 2%Z]> {["a" := 1%Z]}.

Definition calls : list (op Z) :=
  [OpSet "a" 1%Z; OpSet "b" 2%Z; OpDelete "a"].

End IntStore.

(** A pointer type [*int]: nil or the address of an integer cell.  The
    cells are the caller's memory; the store copies and compares pointers
    and never follows them. *)
Module PtrStore.

Definition ptr := option nat.

#[export] Instance ptr_zero : GoType ptr := None.

(** [*p] *)
Definition load (cells : list Z) (p : ptr) : option Z :=
  p ≫= λ l, cells !! l.

(** [*p = z] *)
Definition store (p : ptr) (z : Z) (cells : list Z) : list Z :=
  match p with
  | Some l => <[l := z]> cells
  | None => cells
  end.

(** What a reader of the store finds under each key when following the
    pointer it is given. *)
Definition view (cells : list Z) (w : world ptr) (db : DB)
    : gmap string (option Z) :=
  load cells <$> contents (heap w) (data db).

(** The specification on values, at this element type: [Get] returns an
    independent copy, so whatever the caller stores through the pointer
    it was given, a reader of the store finds what was there before. *)
Definition Get_returns_independent_copy : Prop :=
  ∀ (w : world ptr) (db : DB) (key : string) (p : ptr) (w' : world ptr)
    (cells : list Z) (z : Z),
    live w (data db) →
    DB_Get db key w = Ok (p, true) w' →
    view (store p z cells) w' db = view cells w' db.

(** A store with one entry, a pointer to the first cell. *)
Definition shared : world ptr :=
  World [{["a" := Some 0]}]
        {| files := ∅; dirs := ∅; denied := ∅; quota := None |}.

Definition db : DB := {| filepath := ["db.json"]; data := Some 0 |}.

End PtrStore.

(** A number type such as [float64]: [None] stands for NaN, a value that
    [encoding/json] refuses to encode.  The text of the encodable values
    is that of the reference encoding above. *)
Module NumStore.

Definition num := option Z.

#[export] Instance num_zero : GoType num := Some 0%Z.

Definition encodable (v : option (gmap string num)) : bool :=
  match v with
  | None => true
  | Some m => forallb (λ kv, bool_decide (is_Some kv.2)) (map_to_list m)
  end.

#[export] Instance num_json : JSON num := {
  json_marshal v :=
    if encodable v then Some (pos_to_bytes (encode v)) else None;
  json_unmarshal b :=
    match bytes_to_pos b ≫= decode with
    | Some (Some m) => DecObj m
    | Some None => DecNull
    | None => DecErr
    end
}.

(** A store with one entry on a device that holds its text, and the state
    after a [Set] of NaN on it. *)
Definition location : path := ["db.json"].

Definition db : DB := {| filepath := location; data := Some 0 |}.

Definition saved : world num :=
  World [{["a" := Some 1%Z]}]
        {| files := {[ location :=
                         pos_to_bytes (encode (Some ({["a" := Some 1%Z]}
                                                     : gmap string num)))
                         ++ [newline] ]};
           dirs := ∅; denied := ∅; quota := None |}.

Definition wiped : world num :=
  World [<["b" := None]> {["a" := Some 1%Z]}]
        {| files := {[ location := [] ]};
           dirs := ∅; denied := ∅; quota := None |}.

(** The store that [Open] returns where there is no file, and the state
    after a [Set] of NaN on it. *)
Definition nothing : filesystem :=
  {| files := ∅; dirs := ∅; denied := ∅; quota := None |}.

Definition opened : world num := World [∅] nothing.

Definition created : world num :=
  World [{["b" := None]}]
        {| files := {[ location := [] ]};
           dirs := ∅; denied := ∅; quota := None |}.

End NumStore.

(** [encoding/json] at the type [map[string]int], as far as the keys go.
    The encoder writes the entries in the byte order of their keys, and
    writes a key as a JSON string, which coerces it to valid UTF-8: every
    byte that is not part of a well-formed encoding is replaced by U+FFFD.
    The decoder stores the entries in the order of the document, a later
    one over an earlier one with the same key, and refuses a number that
    does not fit in 64 bits.  The text itself is left abstract as above:
    it is the numeral of the code of what is written. *)
Module KeyStore.

Definition code (c : Ascii.ascii) : N := Ascii.N_of_ascii c.

Definition between (lo hi : N) (c : Ascii.ascii) : bool :=
  (lo <=? code c)%N && (code c <=? hi)%N.

(** A continuation byte, and the leading bytes of the sequences of three
    and of four bytes with the second bytes they admit. *)
Definition cont (c : Ascii.ascii) : bool := between 128 191 c.

Definition lead3 (a b : Ascii.ascii) : bool :=
  (between 224 224 a && between 160 191 b)
  || (between 225 236 a && cont b)
  || (between 237 237 a && between 128 159 b)
  || (between 238 239 a && cont b).

Definition lead4 (a b : Ascii.ascii) : bool :=
  (between 240 240 a && between 144 191 b)
  || (between 241 243 a && cont b)
  || (between 244 244 a && between 128 143 b).

(** U+FFFD in UTF-8. *)
Definition replacement : list Ascii.ascii :=
  Ascii.ascii_of_N <$> [239; 191; 189]%N.

Fixpoint coerce (s : list Ascii.ascii) : list Ascii.ascii :=
  match s with
  | [] => []
  | a :: t1 =>
      if between 0 127 a then a :: coerce t1
      else
        match t1 with
        | b :: t2 =>
            if between 194 223 a && cont b then a :: b :: coerce t2
            else
              match t2 with
              | c :: t3 =>
                  if lead3 a b && cont c then a :: b :: c :: coerce t3
                  else
                    match t3 with
                    | e :: t4 =>
                        if lead4 a b && cont c && cont e
                        then a :: b :: c :: e :: coerce t4
                        else replacement ++ coerce t1
                    | [] => replacement ++ coerce t1
                    end
              | [] => replacement ++ coerce t1
              end
        | [] => replacement ++ coerce t1
        end
  end.

Definition coerce_key (key : string) : string :=
  String.string_of_list_ascii (coerce (String.list_ascii_of_string key)).

(** The byte order of strings. *)
Fixpoint bytes_leb (s t : list Ascii.ascii) : bool :=
  match s, t with
  | [], _ => true
  | _ :: _, [] => false
  | a :: s', b :: t' =>
      if (code a <? code b)%N then true
      else if (code b <? code a)%N then false
      else bytes_leb s' t'
  end.

Definition key_le (x y : string * Z) : Prop :=
  Is_true (bytes_leb (String.list_ascii_of_string x.1) (String.list_ascii_of_string y.1)).

(** The entries as the encoder writes them, and the map that the decoder
    makes of the entries of a document. *)
Definition written (m : gmap string Z) : list (string * Z) :=
  (λ kv, (coerce_key kv.1, kv.2)) <$> merge_sort key_le (map_to_list m).

Definition stored (l : list (string * Z)) : gmap string Z :=
  foldl (λ m kv, <[kv.1 := kv.2]> m) ∅ l.

Definition fits (z : Z) : bool :=
  ((- 2 ^ 63 <=? z) && (z <? 2 ^ 63))%Z.

Definition go_json : JSON Z := {|
  json_marshal v := Some (pos_to_bytes (encode (written <$> v)));
  json_unmarshal b :=
    match bytes_to_pos b ≫= decode with
    | Some (Some l) =>
        if forallb (λ kv : string * Z, fits kv.2) l then DecObj (stored l)
        else DecErr
    | Some None => DecNull
    | None => DecErr
    end
|}.

(** A key of one byte that is not UTF-8, and the key it is written as. *)
Definition bad_key : string := String (Ascii.ascii_of_N 255) EmptyString.

Definition written_key : string := String.string_of_list_ascii replacement.

(** The mappings that this encoding represents as they are: every key is
    valid UTF-8 and every value fits in 64 bits. *)
Definition representable (m : gmap string Z) : Prop :=
  ∀ k z, m !! k = Some z → coerce_key k = k ∧ fits z = true.

(** The document of a mapping, and the state after [Set("a", 1)] on the
    store opened at [IntStore.location]. *)
Definition text (m : gmap string Z) : bytes :=
  pos_to_bytes (encode (Some (written m))) ++ [newline].

Definition after_set : world Z :=
  World [{["a" := 1%Z]}]
        (set_files (λ f, <[IntStore.location := text {["a" := 1%Z]}]> f)
                   (disk IntStore.opened)).

End KeyStore.

(** * Properties *)

(** ** The file system calls *)

Lemma is_dir_set_files f fs p : is_dir (set_files f fs) p = is_dir fs p.
Proof. reflexivity. Qed.

Lemma Mkdir_inr p fs fs' :
  Mkdir p fs = inr fs' → fs' = set_dirs (λ d, {[p]} ∪ d) fs.
Proof.
  unfold Mkdir. repeat case_match; congruence.
Qed.

(** The directories that a walk creates lie on the path it walks, and it
    touches nothing but the set of directories. *)
Lemma mkdir_from_inr rest : ∀ pre fs fs',
  mkdir_from pre rest fs = inr fs' →
  is_dir fs pre = true →
  files fs' = files fs ∧ denied fs' = denied fs ∧ quota fs' = quota fs ∧
  dirs fs ⊆ dirs fs' ∧
  (∀ q, q ∈ dirs fs' → q ∈ dirs fs ∨ q `prefix_of` pre ++ rest) ∧
  is_dir fs' (pre ++ rest) = true.
Proof.
  induction rest as [|c rest IH]; intros pre fs fs' Hrun Hpre; simpl in Hrun.
  - inversion Hrun; subst. rewrite app_nil_r. repeat split; auto.
  - destruct (is_dir fs (pre ++ [c])) eqn:Hcur.
    + apply IH in Hrun; [|done].
      rewrite <- app_assoc in Hrun. simpl in Hrun. exact Hrun.
    + destruct (Mkdir (pre ++ [c]) fs) as [err|fs1] eqn:Hmk; [done|].
      apply Mkdir_inr in Hmk. subst fs1.
      apply IH in Hrun.
      * rewrite <- app_assoc in Hrun. simpl in Hrun.
        destruct Hrun as (Hf & Hd & Hq & Hsub & Hnew & Hdir).
        simpl in *. repeat split; auto.
        -- intros q Hq'. apply Hsub, elem_of_union. by right.
        -- intros q Hq'. destruct (Hnew q Hq') as [Hin | Hp]; [|by right].
           apply elem_of_union in Hin as [Hin | Hin]; [|by left].
           apply elem_of_singleton in Hin. subst q. right.
           exists rest. by rewrite <- app_assoc.
      * unfold is_dir. simpl. apply orb_true_iff. right.
        apply bool_decide_eq_true, elem_of_union. left.
        by apply elem_of_singleton.
Qed.

Lemma MkdirAll_inr p fs fs' :
  MkdirAll p fs = inr fs' →
  files fs' = files fs ∧ denied fs' = denied fs ∧ quota fs' = quota fs ∧
  dirs fs ⊆ dirs fs' ∧
  (∀ q, q ∈ dirs fs' → q ∈ dirs fs ∨ q `prefix_of` p) ∧
  is_dir fs' p = true.
Proof.
  unfold MkdirAll. intros H.
  destruct (is_dir fs p) eqn:Hp.
  - inversion H; subst. repeat split; auto.
  - case_match; [done|].
    apply mkdir_from_inr in H; [exact H|reflexivity].
Qed.

(** When the walk fails, what it has made by then lies on the path too,
    and the files are as they were. *)
Lemma mkdir_from_inl rest : ∀ pre fs e fs',
  mkdir_from pre rest fs = inl (e, fs') →
  files fs' = files fs ∧
  (∀ q, q ∈ dirs fs' → q ∈ dirs fs ∨ q `prefix_of` pre ++ rest).
Proof.
  induction rest as [|c rest IH]; intros pre fs e fs' Hrun; simpl in Hrun;
    [done|].
  destruct (is_dir fs (pre ++ [c])) eqn:Hcur.
  - apply IH in Hrun. by rewrite <- app_assoc in Hrun.
  - destruct (Mkdir (pre ++ [c]) fs) as [err|fs1] eqn:Hmk.
    { injection Hrun as <- <-. split; [done|]. by left. }
    apply Mkdir_inr in Hmk. subst fs1.
    apply IH in Hrun as [Hf Hnew]. rewrite <- app_assoc in Hnew.
    simpl in *. split; [done|].
    intros q Hq. destruct (Hnew q Hq) as [Hin|Hp]; [|by right].
    apply elem_of_union in Hin as [Hin|Hin]; [|by left].
    apply elem_of_singleton in Hin. subst q. right.
    exists rest. by rewrite <- app_assoc.
Qed.

Lemma MkdirAll_inl p fs e fs' :
  MkdirAll p fs = inl (e, fs') →
  files fs' = files fs ∧
  (∀ q, q ∈ dirs fs' → q ∈ dirs fs ∨ q `prefix_of` p).
Proof.
  unfold MkdirAll. intros H.
  destruct (is_dir fs p); [done|].
  case_match.
  - injection H as <- <-. split; [done|]. by left.
  - by apply mkdir_from_inl in H.
Qed.

Lemma MkdirAll_dir p fs : is_dir fs p = true → MkdirAll p fs = inr fs.
Proof. unfold MkdirAll. by intros ->. Qed.

Lemma length_Dir p : p ≠ [] → length p = S (length (Dir p)).
Proof.
  intros Hp. destruct (exists_last Hp) as (q & c & ->).
  unfold Dir. rewrite removelast_last, length_app. simpl. lia.
Qed.

(** A path is not among the directories made for its parent. *)
Lemma not_prefix_Dir p : p ≠ [] → ¬ p `prefix_of` Dir p.
Proof.
  intros Hp Hpre. apply prefix_length in Hpre.
  rewrite (length_Dir p Hp) in Hpre. lia.
Qed.

(** Making the directories for the parent of [p] does not make [p] one. *)
Lemma MkdirAll_not_dir p fs fs' :
  MkdirAll (Dir p) fs = inr fs' → is_dir fs p = false → is_dir fs' p = false.
Proof.
  intros Hmk Hp. apply MkdirAll_inr in Hmk as (_ & _ & _ & _ & Hnew & _).
  unfold is_dir in *. apply orb_false_iff in Hp as [Hnil Hd].
  apply orb_false_iff. split; [done|].
  apply bool_decide_eq_false in Hnil, Hd. apply bool_decide_eq_false.
  intros Hin. destruct (Hnew _ Hin) as [?|Hpre]; [done|].
  by apply (not_prefix_Dir p).
Qed.

Lemma OpenFile_inr p fs fs' :
  OpenFile_create_trunc p fs = inr fs' →
  fs' = set_files (λ f, <[p := []]> f) fs ∧
  is_dir fs p = false ∧ is_dir fs (Dir p) = true ∧ p ∉ denied fs.
Proof.
  unfold OpenFile_create_trunc. intros H.
  destruct (is_dir fs p) eqn:E1; [done|].
  destruct (is_dir fs (Dir p)) eqn:E2; [|done]. simpl in H.
  destruct (bool_decide (p ∈ denied fs)) eqn:E3; [done|].
  apply bool_decide_eq_false in E3.
  repeat case_match; inversion H; subst; auto.
Qed.

(** Once a file has been opened for writing, opening it again works. *)
Lemma OpenFile_again p fs fs' g :
  OpenFile_create_trunc p fs = inr fs' →
  OpenFile_create_trunc p (set_files (λ f, <[p := g f]> f) fs)
  = inr (set_files (λ f, <[p := []]> f) fs).
Proof.
  intros H. apply OpenFile_inr in H as (_ & E1 & E2 & E3).
  unfold OpenFile_create_trunc.
  rewrite !is_dir_set_files, E1, E2. simpl.
  rewrite bool_decide_eq_false_2 by done.
  rewrite lookup_insert_eq. unfold set_files. simpl.
  by rewrite insert_insert_eq.
Qed.

(** ** The heap *)

Section Heap.
Context {T : Type} `{!GoType T}.
Implicit Types (h : list (gmap string T)) (o : gmap string T).
Implicit Types (r : mapref) (d : filesystem).

Lemma contents_app_empty h r : contents (h ++ [∅]) r = contents h r.
Proof.
  destruct r as [l|]; [|done]. simpl.
  destruct (decide (l < length h)) as [Hlt|Hge].
  - by rewrite lookup_app_l.
  - rewrite (lookup_ge_None_2 h l) by lia.
    destruct (decide (l = length h)) as [->|Hne].
    + by rewrite list_lookup_middle.
    + rewrite lookup_ge_None_2; [done|]. rewrite length_app. simpl. lia.
Qed.

Lemma contents_app_live h k r :
  match r with Some l => l < length h | None => True end →
  contents (h ++ k) r = contents h r.
Proof.
  destruct r as [l|]; [|done]. simpl. intros Hl. by rewrite lookup_app_l.
Qed.

Lemma contents_insert_eq h l o :
  l < length h → contents (<[l := o]> h) (Some l) = o.
Proof. intros Hl. simpl. by rewrite list_lookup_insert_eq. Qed.

Lemma contents_insert_ne h l o r :
  r ≠ Some l → contents (<[l := o]> h) r = contents h r.
Proof.
  destruct r as [l'|]; [|done]. intros Hne. simpl.
  rewrite list_lookup_insert_ne; [done|congruence].
Qed.

(** The copying loop leaves in the target every entry it was given, on
    top of what the target held. *)
Lemma copy_entries_spec entries : ∀ h d l o,
  NoDup entries.*1 →
  h !! l = Some o →
  copy_entries entries (Some l) (World h d)
  = Ok tt (World (<[l := list_to_map entries ∪ o]> h) d).
Proof.
  induction entries as [|[k v] rest IH]; intros h d l o Hnd Hl; simpl.
  - unfold ret. rewrite (left_id_L ∅ (∪)). by rewrite list_insert_id.
  - rewrite fmap_cons in Hnd. apply NoDup_cons in Hnd as [Hk Hnd].
    unfold bind, map_assign. simpl. rewrite Hl. unfold set_heap. simpl.
    rewrite (IH _ _ l (<[k := v]> o)); [|done|].
    + rewrite list_insert_insert_eq. do 3 f_equal.
      rewrite <- insert_union_l, insert_union_r; [done|].
      by apply not_elem_of_list_to_map_1.
    + apply list_lookup_insert_eq. by eapply lookup_lt_Some.
Qed.

(** [cloneMap] allocates one map object, with the entries of the
    original, and changes nothing else. *)
Lemma cloneMap_spec r h d :
  cloneMap r (World h d)
  = Ok (Some (length h)) (World (h ++ [contents h r]) d).
Proof.
  unfold cloneMap, bind, make_map, map_range, set_heap. simpl.
  rewrite contents_app_empty.
  rewrite (copy_entries_spec _ _ _ (length h) ∅).
  - unfold ret. do 2 f_equal.
    rewrite list_to_map_to_list, (right_id_L ∅ (∪)).
    rewrite insert_app_r_alt by lia. by rewrite Nat.sub_diag.
  - apply NoDup_fst_map_to_list.
  - by apply list_lookup_middle.
Qed.

Lemma GetAll_spec (db : DB) h d :
  DB_GetAll db (World h d)
  = Ok (Some (length h)) (World (h ++ [contents h (data db)]) d).
Proof. apply cloneMap_spec. Qed.

(** A batch function changes the working copy of its transaction as
    [batch_result] says, and nothing else. *)
Lemma call_spec (fn : batch T) : ∀ (db : DB) h d l o,
  h !! l = Some o →
  call fn {| tx_db := db; tx_data := Some l |} (World h d)
  = Ok (batch_result fn o).2 (World (<[l := (batch_result fn o).1]> h) d).
Proof.
  induction fn as [err|key next IH|key value next IH|key next IH];
    intros db h d l o Hl; simpl.
  - unfold ret. by rewrite list_insert_id.
  - unfold bind, Tx_Get, bind, map_index, ret. simpl. rewrite Hl. simpl.
    destruct (o !! key) as [value|]; by apply IH.
  - unfold bind, Tx_Set, map_assign. simpl. rewrite Hl.
    unfold set_heap. simpl.
    rewrite (IH db _ d l (<[key := value]> o)).
    + by rewrite list_insert_insert_eq.
    + apply list_lookup_insert_eq. by eapply lookup_lt_Some.
  - unfold bind, Tx_Delete, map_delete. simpl. rewrite Hl.
    unfold set_heap. simpl.
    rewrite (IH db _ d l (delete key o)).
    + by rewrite list_insert_insert_eq.
    + apply list_lookup_insert_eq. by eapply lookup_lt_Some.
Qed.

End Heap.

(** ** Reading and writing the file *)

Section Persist.
Context {T : Type} `{!GoType T, !JSON T}.
Implicit Types (h : list (gmap string T)) (o : gmap string T).
Implicit Types (r : mapref) (d : filesystem) (w : world T).

(** Truncating and then writing [b] leaves exactly [b] in the file. *)
Lemma Write_after_open p b d :
  Write p b (set_files (λ f, <[p := []]> f) d)
  = match quota d with
    | Some n =>
        if bool_decide (n < length b)
        then (set_files (λ f, <[p := take n b]> f) d, Some ErrNoSpace)
        else (set_files (λ f, <[p := b]> f) d, None)
    | None => (set_files (λ f, <[p := b]> f) d, None)
    end.
Proof.
  unfold Write, set_files. simpl.
  rewrite lookup_insert_eq. simpl.
  destruct (quota d) as [n|]; [case_bool_decide|];
    by rewrite insert_insert_eq.
Qed.

Lemma writeData_spec fp r h d :
  writeData fp r (World h d)
  = match OpenFile_create_trunc fp d with
    | inl err => Ok (Some err) (World h d)
    | inr fs =>
        match json_marshal (map_value h r) with
        | None => Ok (Some ErrEncode) (World h fs)
        | Some b =>
            Ok (Write fp (b ++ [newline]) fs).2
               (World h (Write fp (b ++ [newline]) fs).1)
        end
    end.
Proof.
  unfold writeData, bind, os_OpenFile, Encoder_Encode, file_Write, ret.
  simpl. destruct (OpenFile_create_trunc fp d) as [err|fs]; [done|].
  simpl. destruct (json_marshal (map_value h r)) as [b|]; [|done].
  destruct (Write fp (b ++ [newline]) fs) as [fs' [err|]]; done.
Qed.

(** [writeData] returns, and leaves the heap alone. *)
Lemma writeData_heap fp r h d :
  ∃ err d', writeData fp r (World h d) = Ok err (World h d').
Proof.
  rewrite writeData_spec. repeat case_match; eauto.
Qed.

(** When [writeData] succeeds, the file holds the text of the value and
    the newline, and nothing else on the device has changed. *)
Lemma writeData_ok fp r h d w' :
  writeData fp r (World h d) = Ok None w' →
  ∃ b, json_marshal (map_value h r) = Some b ∧
       w' = World h (set_files (λ f, <[fp := b ++ [newline]]> f) d) ∧
       is_dir d (Dir fp) = true ∧ is_dir d fp = false ∧ fp ∉ denied d.
Proof.
  rewrite writeData_spec. intros H.
  destruct (OpenFile_create_trunc fp d) as [err|fs] eqn:Hopen; [done|].
  destruct (json_marshal (map_value h r)) as [b|] eqn:Hm; [|done].
  apply OpenFile_inr in Hopen as (-> & Hnd & Hpd & Hden).
  rewrite Write_after_open in H.
  exists b. repeat case_match; simpl in H; inversion H; subst; auto.
Qed.

(** Writing the same value again, on the device that a first write left,
    ends as the first write did and leaves the device as it is. *)
Lemma writeData_again fp r h d err d' h2 :
  writeData fp r (World h d) = Ok err (World h d') →
  map_value h2 r = map_value h r →
  writeData fp r (World h2 d') = Ok err (World h2 d').
Proof.
  rewrite !writeData_spec. intros H Hv. rewrite Hv.
  destruct (OpenFile_create_trunc fp d) as [e|fs] eqn:Hopen.
  { inversion H; subst. by rewrite Hopen. }
  pose proof (OpenFile_inr _ _ _ Hopen) as (-> & _).
  destruct (json_marshal (map_value h r)) as [b|] eqn:Hm.
  - rewrite Write_after_open in H.
    destruct (quota d) as [n|] eqn:Hq; [case_bool_decide|];
      simpl in H; inversion H; subst;
      match goal with
      | |- context [set_files (λ f, <[fp := ?c]> f) d] =>
          rewrite (OpenFile_again fp d _ (λ _, c) Hopen)
      end;
      rewrite Write_after_open, Hq; try case_bool_decide; done.
  - inversion H; subst.
    by rewrite (OpenFile_again fp d _ (λ _, []) Hopen).
Qed.

Lemma readData_spec fp h d :
  readData fp (World h d)
  = match ReadFile fp d with
    | inl err =>
        if IsNotExist err
        then Ok (Some (length h), None) (World (h ++ [∅]) d)
        else Ok (None, Some err) (World (h ++ [∅]) d)
    | inr fileData =>
        if bool_decide (length fileData = 0)
        then Ok (Some (length h), None) (World (h ++ [∅]) d)
        else match json_unmarshal fileData with
             | DecErr => Ok (None, Some ErrDecode) (World (h ++ [∅]) d)
             | DecNull => Ok (None, None) (World (h ++ [∅]) d)
             | DecObj m => Ok (Some (length h), None) (World (h ++ [m]) d)
             end
    end.
Proof.
  unfold readData, bind, make_map, ioutil_ReadFile, set_heap. simpl.
  destruct (ReadFile fp d) as [err|fileData]; [by destruct (IsNotExist err)|].
  case_bool_decide; [done|].
  unfold json_Unmarshal.
  destruct (json_unmarshal fileData) as [| |m]; try done.
  unfold set_heap, ret. simpl. do 3 f_equal.
  rewrite list_lookup_middle by done. simpl.
  rewrite (right_id_L ∅ (∪)), insert_app_r_alt by lia.
  by rewrite Nat.sub_diag.
Qed.

(** [writeData] leaves a file at the location as soon as it has opened
    it, however it ends; when it cannot open it, it returns that error and
    changes nothing. *)
Lemma writeData_creates fp r h d res w' :
  writeData fp r (World h d) = Ok res w' →
  match OpenFile_create_trunc fp d with
  | inr _ => is_Some (files (disk w') !! fp)
  | inl e => res = Some e ∧ w' = World h d
  end.
Proof.
  rewrite writeData_spec.
  destruct (OpenFile_create_trunc fp d) as [e|fs] eqn:Hopen.
  { by intros [= <- <-]. }
  apply OpenFile_inr in Hopen as (-> & _).
  destruct (json_marshal (map_value h r)) as [b|].
  - rewrite Write_after_open.
    destruct (quota d) as [n|]; [case_bool_decide|]; simpl;
      intros [= _ <-]; simpl; rewrite lookup_insert_eq; eauto.
  - intros [= _ <-]. simpl. rewrite lookup_insert_eq. eauto.
Qed.

(** [readData] never writes to the device. *)
Lemma readData_disk fp w :
  ∃ res w', readData fp w = Ok res w' ∧ disk w' = disk w.
Proof.
  destruct w as [h d]. rewrite readData_spec.
  repeat case_match; eauto.
Qed.

End Persist.

(** ** The calls of the store, step by step *)

(** [writeData] always returns and leaves the heap alone; this step names
    its error and the device it leaves, in a hypothesis [H] that has it
    for the last action of a call, and reads off what [H] then says. *)
Ltac after_writeData H :=
  match type of H with
  | context [writeData ?fp ?r (World ?h ?d)] =>
      let e := fresh "e" in
      let d' := fresh "d'" in
      let Hw := fresh "Hw" in
      destruct (writeData_heap fp r h d) as (e & d' & Hw);
      rewrite Hw in H; inversion H; subst
  end.

Section Calls.
Context {T : Type} `{!GoType T, !JSON T}.
Implicit Types (h : list (gmap string T)) (o : gmap string T).
Implicit Types (r : mapref) (d : filesystem) (w : world T) (db : DB).

Lemma DB_Get_spec db key h d :
  DB_Get db key (World h d)
  = Ok match contents h (data db) !! key with
       | Some value => (value, true)
       | None => (zero, false)
       end (World h d).
Proof.
  unfold DB_Get, bind, map_index, ret. simpl.
  by destruct (contents h (data db) !! key).
Qed.

Lemma DB_Set_spec db key value h d :
  DB_Set db key value (World h d)
  = match data db with
    | None => Panic
    | Some l =>
        match h !! l with
        | None => Panic
        | Some o =>
            writeData (filepath db) (data db)
              (World (<[l := <[key := value]> o]> h) d)
        end
    end.
Proof.
  unfold DB_Set, bind, map_assign, DB_persist, set_heap. simpl.
  destruct (data db) as [l|]; [|done]. by destruct (h !! l).
Qed.

Lemma DB_Delete_spec db key h d :
  DB_Delete db key (World h d)
  = match data db with
    | None => writeData (filepath db) (data db) (World h d)
    | Some l =>
        match h !! l with
        | None => writeData (filepath db) (data db) (World h d)
        | Some o =>
            writeData (filepath db) (data db)
              (World (<[l := delete key o]> h) d)
        end
    end.
Proof.
  unfold DB_Delete, bind, map_delete, DB_persist, set_heap. simpl.
  destruct (data db) as [l|]; [|done]. by destruct (h !! l).
Qed.

Lemma DB_Transaction_spec db fn h d :
  let res := batch_result fn (contents h (data db)) in
  DB_Transaction db fn (World h d)
  = match res.2 with
    | Some err => Ok (db, Some err) (World (h ++ [res.1]) d)
    | None =>
        match
          writeData (filepath db) (Some (length h)) (World (h ++ [res.1]) d)
        with
        | Ok err w' =>
            Ok ({| filepath := filepath db; data := Some (length h) |}, err) w'
        | Panic => Panic
        end
    end.
Proof.
  intros res. unfold DB_Transaction, bind.
  rewrite cloneMap_spec.
  rewrite (call_spec fn db _ d (length h) (contents h (data db)))
    by by apply list_lookup_middle.
  fold res. rewrite insert_app_r_alt, Nat.sub_diag by lia. simpl.
  destruct (res.2) as [err|]; [done|].
  unfold DB_persist. simpl.
  by destruct (writeData _ _ _).
Qed.

(** A mutating call whose batch function, if it has one, does not fail
    comes down to this: the mapping in memory is brought to the new value,
    and then the whole of it is written out by [writeData], whose error is
    the result of the call. *)
Lemma mutate_commit db mu h d db' err w' :
  live (World h d) (data db) →
  mutate db mu (World h d) = Ok (db', err) w' →
  (effect mu (contents h (data db))).2 = None →
  ∃ h', writeData (filepath db) (data db') (World h' d) = Ok err w' ∧
        contents h' (data db') = (effect mu (contents h (data db))).1 ∧
        filepath db' = filepath db ∧
        live (World h' d) (data db').
Proof.
  intros Hlive.
  destruct mu as [key value|key|fn]; simpl; unfold bind, ret.
  - rewrite DB_Set_spec. intros H _.
    destruct (data db) as [l|] eqn:Hd; [|done].
    destruct (h !! l) as [o|] eqn:Hl; [|done].
    destruct (writeData _ _ _) as [e w1|] eqn:Hw; [|done].
    inversion H; subst. rewrite Hd. eexists. split; [exact Hw|].
    pose proof (lookup_lt_Some _ _ _ Hl).
    rewrite contents_insert_eq by done. simpl. rewrite Hl, length_insert.
    auto.
  - rewrite DB_Delete_spec. intros H _.
    destruct (data db) as [l|] eqn:Hd.
    + simpl in Hlive. destruct (lookup_lt_is_Some_2 h l Hlive) as [o Hl].
      rewrite Hl in H.
      destruct (writeData _ _ _) as [e w1|] eqn:Hw; [|done].
      inversion H; subst. rewrite Hd. eexists. split; [exact Hw|].
      rewrite contents_insert_eq by done. simpl.
      rewrite Hl, length_insert. auto.
    + destruct (writeData _ _ _) as [e w1|] eqn:Hw; [|done].
      inversion H; subst. rewrite Hd. exists h. split; [exact Hw|].
      simpl. rewrite delete_empty. auto.
  - rewrite DB_Transaction_spec. intros H Hres. simpl in H. rewrite Hres in H.
    destruct (writeData _ _ _) as [e w1|] eqn:Hw; [|done].
    inversion H; subst. simpl. eexists. split; [exact Hw|].
    rewrite list_lookup_middle by done. rewrite length_app. simpl.
    repeat split; auto. lia.
Qed.

(** Every handle that [Open] returns is live, and stays so. *)
Lemma Open_live fp w db err w' :
  Open fp w = Ok (Some db, err) w' → live w' (data db).
Proof.
  destruct w as [h d]. unfold Open, bind, os_MkdirAll, ret. simpl.
  destruct (MkdirAll (Dir fp) d) as [[e fs]|fs]; [done|].
  unfold set_disk. simpl.
  rewrite readData_spec.
  repeat case_match; intros Hres; simplify_eq; simpl;
    rewrite ?length_app; simpl; lia || done.
Qed.

Lemma mutate_live db mu w db' err w' :
  live w (data db) →
  mutate db mu w = Ok (db', err) w' →
  live w' (data db').
Proof.
  destruct w as [h d]. intros Hlive H.
  destruct mu as [key value|key|fn]; simpl in H; unfold bind, ret in H.
  - rewrite DB_Set_spec in H.
    destruct (data db) as [l|] eqn:Hd; [|done].
    destruct (h !! l) as [o|] eqn:Hl; [|done].
    after_writeData H. rewrite Hd. simpl. by rewrite length_insert.
  - rewrite DB_Delete_spec in H.
    destruct (data db) as [l|] eqn:Hd; [destruct (h !! l) as [o|] eqn:Hl|];
      after_writeData H; rewrite Hd; simpl; by rewrite ?length_insert.
  - rewrite DB_Transaction_spec in H. simpl in H.
    destruct (batch_result fn (contents h (data db))) as [o [e|]];
      simpl in H.
    + inversion H; subst.
      destruct (data db'); simpl in *; [rewrite length_app; lia|done].
    + after_writeData H. simpl. rewrite length_app. simpl. lia.
Qed.

(** On a store whose map is nil, [Set] panics before anything is
    written. *)
Lemma DB_Set_nil_panics db key value w :
  data db = None → DB_Set db key value w = Panic.
Proof. destruct w as [h d]. rewrite DB_Set_spec. by intros ->. Qed.

Lemma Open_spec fp h d :
  Open fp (World h d)
  = match MkdirAll (Dir fp) d with
    | inl (err, fs) => Ok (None, Some err) (World h fs)
    | inr fs =>
        match readData fp (World h fs) with
        | Ok (data, None) w' =>
            Ok (Some {| filepath := fp; data := data |}, None) w'
        | Ok (_, Some err) w' => Ok (None, Some err) w'
        | Panic => Panic
        end
    end.
Proof.
  unfold Open, bind, os_MkdirAll, ret, set_disk. simpl.
  destruct (MkdirAll (Dir fp) d) as [[err fs]|fs]; [done|]. simpl.
  destruct (readData fp _) as [[data [err|]] w'|]; done.
Qed.

(** A successful mutating call did not have a failing batch function. *)
Lemma mutate_ok_effect db mu h d db' w' :
  mutate db mu (World h d) = Ok (db', None) w' →
  (effect mu (contents h (data db))).2 = None.
Proof.
  destruct mu as [key value|key|fn]; simpl; [done..|].
  rewrite DB_Transaction_spec. simpl.
  by destruct (batch_result fn (contents h (data db))).2.
Qed.

(** After a successful [writeData], a new [Open] of the same location
    finds the mapping that was written, provided its text converts back
    without loss. *)
Lemma writeData_reopen fp r h d w' :
  round_trips (map_value h r) →
  writeData fp r (World h d) = Ok None w' →
  ∃ r2 w2, Open fp w' = Ok (Some {| filepath := fp; data := r2 |}, None) w2 ∧
           contents (heap w2) r2 = contents h r ∧
           disk w2 = disk w'.
Proof.
  intros Hrt Hw.
  apply writeData_ok in Hw as (b & Hm & -> & Hpd & Hnd & Hden).
  rewrite Open_spec, MkdirAll_dir by by rewrite is_dir_set_files.
  rewrite readData_spec. unfold ReadFile.
  rewrite is_dir_set_files, Hnd. simpl. rewrite lookup_insert_eq.
  rewrite bool_decide_eq_false_2 by done.
  rewrite bool_decide_eq_false_2
    by (rewrite length_app; simpl; lia).
  rewrite (Hrt _ Hm).
  destruct r as [l|]; simpl.
  - do 2 eexists. split; [done|]. simpl. by rewrite list_lookup_middle.
  - do 2 eexists. by split.
Qed.

(** When [writeData] fails, the file does not hold the text of the value
    unless it did already and was not touched. *)
Lemma writeData_failed fp r h d err w' :
  writeData fp r (World h d) = Ok (Some err) w' →
  heap w' = h ∧
  ∀ b, json_marshal (map_value h r) = Some b →
       files (disk w') !! fp = Some (b ++ [newline]) →
       disk w' = d.
Proof.
  rewrite writeData_spec. intros H.
  destruct (OpenFile_create_trunc fp d) as [e|fs] eqn:Hopen.
  { by inversion H; subst. }
  apply OpenFile_inr in Hopen as (-> & _).
  destruct (json_marshal (map_value h r)) as [b|] eqn:Hm.
  - rewrite Write_after_open in H.
    destruct (quota d) as [n|]; [case_bool_decide as Hn|];
      simpl in H; inversion H; subst; simpl.
    split; [done|]. intros b' [= <-]. rewrite lookup_insert_eq.
    intros [= Heq]. apply (f_equal length) in Heq.
    rewrite length_take in Heq. lia.
  - inversion H; subst. simpl. split; [done|]. by intros b' [=].
Qed.

End Calls.

(** ** What the store promises *)

Section Claims.
Context {T : Type} `{!GoType T, !JSON T}.
Implicit Types (h : list (gmap string T)) (o : gmap string T).
Implicit Types (r : mapref) (d : filesystem) (w : world T) (db : DB).

(** C2.  When [Set(k, v)] has returned without error, [Get(k)] on the
    state it left returns [(v, true)], and reading changes nothing. *)
Theorem C2_get_after_set db key value w w' :
  DB_Set db key value w = Ok None w' →
  DB_Get db key w' = Ok (value, true) w'.
Proof.
  destruct w as [h d]. rewrite DB_Set_spec. intros H.
  destruct (data db) as [l|] eqn:Hd; [|done].
  destruct (h !! l) as [o|] eqn:Hl; [|done].
  after_writeData H.
  rewrite DB_Get_spec, Hd, contents_insert_eq
    by by eapply lookup_lt_Some.
  by rewrite lookup_insert_eq.
Qed.

(** C7.  When [Delete(k)] has returned without error, [Get(k)] reports
    the key as missing (zero value, [false]), and a second [Delete(k)]
    returns without error too and changes neither memory nor the file.
    More generally, on any state in which [k] is missing, [Delete(k)] is
    the write-out of the unchanged mapping and nothing else. *)
Theorem C7_delete_then_get_then_delete db key w w' :
  DB_Delete db key w = Ok None w' →
  DB_Get db key w' = Ok (zero, false) w' ∧
  DB_Delete db key w' = Ok None w' ∧
  (∀ w0, contents (heap w0) (data db) !! key = None →
         DB_Delete db key w0 = DB_persist db w0).
Proof.
  destruct w as [h d]. rewrite DB_Delete_spec. intros H.
  split; [|split].
  - destruct (data db) as [l|] eqn:Hd; [destruct (h !! l) as [o|] eqn:Hl|];
      after_writeData H; rewrite DB_Get_spec, Hd.
    + rewrite contents_insert_eq by by eapply lookup_lt_Some.
      by rewrite lookup_delete_eq.
    + simpl. by rewrite Hl.
    + done.
  - destruct (data db) as [l|] eqn:Hd; [destruct (h !! l) as [o|] eqn:Hl|];
      after_writeData H; rewrite DB_Delete_spec, Hd.
    + rewrite list_lookup_insert_eq by by eapply lookup_lt_Some.
      rewrite list_insert_insert_eq, delete_delete_eq.
      by apply (writeData_again _ _ _ _ _ _ _ Hw).
    + rewrite Hl. by apply (writeData_again _ _ _ _ _ _ _ Hw).
    + by apply (writeData_again _ _ _ _ _ _ _ Hw).
  - intros [h0 d0] Hmiss. rewrite DB_Delete_spec. unfold DB_persist.
    destruct (data db) as [l|] eqn:Hd; [|done].
    destruct (h0 !! l) as [o|] eqn:Hl; [|done].
    simpl in Hmiss. rewrite Hl in Hmiss. simpl in Hmiss.
    by rewrite delete_id, list_insert_id.
Qed.

(** C9.  A second [Set(k, v)] with the same value, on the state the first
    one left, ends as the first did (without error if the first did) and
    leaves that state as it is: the mapping in memory and every file on
    the device are the same after two calls as after one. *)
Theorem C9_set_twice db key value w err w' :
  DB_Set db key value w = Ok err w' →
  DB_Set db key value w' = Ok err w'.
Proof.
  destruct w as [h d]. rewrite DB_Set_spec. intros H.
  destruct (data db) as [l|] eqn:Hd; [|done].
  destruct (h !! l) as [o|] eqn:Hl; [|done].
  after_writeData H.
  rewrite DB_Set_spec, Hd.
  rewrite list_lookup_insert_eq by by eapply lookup_lt_Some.
  rewrite list_insert_insert_eq, insert_insert_eq.
  by apply (writeData_again _ _ _ _ _ _ _ Hw).
Qed.

(** C1.  When the batch function, run on the working copy that
    [Transaction] cloned for it, returns a failure, [Transaction] returns
    that failure; the store keeps its map object and that object its
    entries, so [Get] and [GetAll] answer as before the call; the device
    is not touched; and the working copy is a different map object, which
    nothing refers to afterwards. *)
Theorem C1_failed_batch_leaves_store db fn w tx_data w1 err w2 :
  live w (data db) →
  cloneMap (data db) w = Ok tx_data w1 →
  call fn {| tx_db := db; tx_data := tx_data |} w1 = Ok (Some err) w2 →
  DB_Transaction db fn w = Ok (db, Some err) w2 ∧
  contents (heap w2) (data db) = contents (heap w) (data db) ∧
  disk w2 = disk w ∧
  tx_data ≠ data db ∧
  (∀ key, ∃ res, DB_Get db key w = Ok res w ∧
                 DB_Get db key w2 = Ok res w2) ∧
  (∃ r wa r2 wb, DB_GetAll db w = Ok r wa ∧ DB_GetAll db w2 = Ok r2 wb ∧
                 contents (heap wb) r2 = contents (heap wa) r).
Proof.
  destruct w as [h d]. intros Hlive Hclone Hcall.
  rewrite cloneMap_spec in Hclone. inversion Hclone; subst. clear Hclone.
  rewrite (call_spec fn db _ d (length h) (contents h (data db))) in Hcall
    by by apply list_lookup_middle.
  rewrite insert_app_r_alt, Nat.sub_diag in Hcall by lia. simpl in Hcall.
  injection Hcall as Herr Hw2. subst w2.
  pose proof (DB_Transaction_spec db fn h d) as Htx. simpl in Htx.
  rewrite Herr in Htx.
  assert (contents (h ++ [(batch_result fn (contents h (data db))).1])
            (data db) = contents h (data db)) as Hsame
    by by apply contents_app_live.
  split; [exact Htx|]. simpl. split; [exact Hsame|]. split; [done|].
  split.
  { destruct (data db) as [l|]; [|done]. simpl in Hlive.
    intros [= Heq]. lia. }
  split.
  - intros key. rewrite !DB_Get_spec, Hsame. eauto.
  - rewrite !GetAll_spec. do 4 eexists. split; [done|]. split; [done|].
    simpl. rewrite !list_lookup_middle by done. simpl. exact Hsame.
Qed.


(** C4, as the code has it.  A [Set], a [Delete] and a [Transaction]
    whose batch function succeeded first bring the memory to the new
    mapping ([wm] is the state then, with the device untouched) and then
    call [persist].  When [persist] fails, the call returns that error,
    and the mapping in memory is the new one all the same: nothing is
    rolled back.  The failed write has not brought the file up to date:
    afterwards the file holds the text of the mapping in memory only if
    the write did not touch the device at all, so memory and device are
    inconsistent unless the file held that text already. *)
Theorem C4_persist_failure_keeps_mutation db mu w wm db' err w' :
  match mu with
  | MSet key value =>
      map_assign (data db) key value w = Ok tt wm ∧ db' = db
  | MDelete key =>
      map_delete (data db) key w = Ok tt wm ∧ db' = db
  | MTransaction fn =>
      ∃ tx_data w1,
        cloneMap (data db) w = Ok tx_data w1 ∧
        call fn {| tx_db := db; tx_data := tx_data |} w1 = Ok None wm ∧
        db' = {| filepath := filepath db; data := tx_data |}
  end →
  DB_persist db' wm = Ok (Some err) w' →
  mutate db mu w = Ok (db', Some err) w' ∧
  contents (heap w') (data db')
  = (effect mu (contents (heap w) (data db))).1 ∧
  heap w' = heap wm ∧
  disk wm = disk w ∧
  (mirrors db' w' → disk w' = disk w).
Proof.
  destruct w as [h d], wm as [hm dm]. unfold DB_persist.
  intros Hmem Hfail.
  destruct (writeData_failed _ _ _ _ _ _ Hfail) as [Hh Hfile].
  assert (dm = d ∧
          contents hm (data db') = (effect mu (contents h (data db))).1 ∧
          mutate db mu (World h d)
          = match writeData (filepath db') (data db') (World hm dm) with
            | Ok e w2 => Ok (db', e) w2
            | Panic => Panic
            end) as (-> & Hc & Hmut).
  { destruct mu as [key value|key|fn]; simpl.
    - destruct Hmem as [Hmem ->]. unfold bind, ret.
      rewrite DB_Set_spec. unfold map_assign in Hmem. simpl in Hmem.
      destruct (data db) as [l|] eqn:Hd; [|done].
      destruct (h !! l) as [o|] eqn:Hl; [|done].
      injection Hmem as <- <-. split; [done|].
      rewrite contents_insert_eq by by eapply lookup_lt_Some.
      simpl. by rewrite Hl.
    - destruct Hmem as [Hmem ->]. unfold bind, ret.
      rewrite DB_Delete_spec. unfold map_delete in Hmem. simpl in Hmem.
      destruct (data db) as [l|] eqn:Hd;
        [destruct (h !! l) as [o|] eqn:Hl|];
        injection Hmem as <- <-; (split; [done|]); simpl.
      + rewrite list_lookup_insert_eq by by eapply lookup_lt_Some.
        simpl. by rewrite Hl.
      + split; [|done]. rewrite Hl. simpl. by rewrite delete_empty.
      + split; [|done]. by rewrite delete_empty.
    - destruct Hmem as (tx_data & w1 & Hclone & Hcall & ->).
      rewrite cloneMap_spec in Hclone. injection Hclone as <- <-.
      rewrite (call_spec fn db _ d (length h) (contents h (data db)))
        in Hcall by by apply list_lookup_middle.
      rewrite insert_app_r_alt, Nat.sub_diag in Hcall by lia.
      simpl in Hcall. injection Hcall as Hnone <- <-.
      split; [done|]. simpl. rewrite list_lookup_middle by done.
      split; [done|].
      pose proof (DB_Transaction_spec db fn h d) as Htx. simpl in Htx.
      by rewrite Hnone in Htx. }
  rewrite Hfail in Hmut. simpl in *.
  split; [exact Hmut|]. split; [by rewrite Hh|]. split; [done|].
  split; [done|].
  intros (b & Hm & Hb). rewrite Hh in Hm. by apply (Hfile b).
Qed.


(** C5.  Once the directory of the location is in place: [Open] returns a
    store with a new, empty mapping when nothing exists at the location
    and when the file there is empty; and when the file is not empty and
    its content does not decode, [Open] returns the decoding error and no
    store. *)
Theorem C5_open_outcomes fp w fs :
  MkdirAll (Dir fp) (disk w) = inr fs →
  (absent (disk w) fp ∨ holds (disk w) fp [] →
   ∃ db w', Open fp w = Ok (Some db, None) w' ∧
            filepath db = fp ∧ data db ≠ None ∧
            contents (heap w') (data db) = ∅ ∧
            (∀ key, DB_Get db key w' = Ok (zero, false) w')) ∧
  (∀ b, holds (disk w) fp b → b ≠ [] → json_unmarshal b = DecErr →
        ∃ w', Open fp w = Ok (None, Some ErrDecode) w').
Proof.
  destruct w as [h d]. simpl. intros Hmk.
  pose proof (MkdirAll_not_dir _ _ _ Hmk) as Hnd.
  pose proof (MkdirAll_inr _ _ _ Hmk) as (Hf & Hden & _).
  assert (∀ key : string,
    DB_Get {| filepath := fp; data := Some (length h) |} key
      (World (h ++ [∅]) fs) = Ok (zero, false) (World (h ++ [∅]) fs))
    as Hget.
  { intros key. rewrite DB_Get_spec. simpl.
    by rewrite list_lookup_middle. }
  split.
  - intros Hcase. rewrite Open_spec, Hmk, readData_spec. unfold ReadFile.
    exists {| filepath := fp; data := Some (length h) |}, (World (h ++ [∅]) fs).
    destruct Hcase as [[Hp Hnone]|(Hp & Hsome & Hok)];
      rewrite (Hnd Hp), Hf.
    + rewrite Hnone. simpl. rewrite list_lookup_middle by done. auto.
    + rewrite Hsome, Hden, bool_decide_eq_false_2 by done. simpl.
      rewrite list_lookup_middle by done. auto.
  - intros b (Hp & Hsome & Hok) Hb Hdec.
    rewrite Open_spec, Hmk, readData_spec. unfold ReadFile.
    rewrite (Hnd Hp), Hf, Hsome, Hden, bool_decide_eq_false_2 by done.
    rewrite bool_decide_eq_false_2, Hdec by by destruct b.
    eauto.
Qed.

(** C6, as the code has it.  [GetAll] returns a new map object with the
    entries of the store's map.  The store's map object is another one:
    [GetAll] leaves it as it is, and so does whatever is then assigned to
    or deleted from the returned map, once or many times, since a heap
    that differs only at the returned map shows the same store.  The
    values are copied by assignment: what [Get] returns, and what the
    returned map holds under a key, is the value that the store holds,
    itself. *)
Theorem C6_getall_new_map_same_values db w :
  live w (data db) →
  ∃ l w1,
    DB_GetAll db w = Ok (Some l) w1 ∧
    Some l ≠ data db ∧
    disk w1 = disk w ∧
    contents (heap w1) (Some l) = contents (heap w) (data db) ∧
    contents (heap w1) (data db) = contents (heap w) (data db) ∧
    (∀ key value w2,
       map_assign (Some l) key value w1 = Ok tt w2 →
       contents (heap w2) (data db) = contents (heap w) (data db)) ∧
    (∀ key w2,
       map_delete (Some l) key w1 = Ok tt w2 →
       contents (heap w2) (data db) = contents (heap w) (data db)) ∧
    (∀ w2, (∀ l', l' ≠ l → heap w2 !! l' = heap w1 !! l') →
           contents (heap w2) (data db) = contents (heap w) (data db)) ∧
    (∀ key value,
       contents (heap w) (data db) !! key = Some value →
       DB_Get db key w = Ok (value, true) w ∧
       contents (heap w1) (Some l) !! key = Some value).
Proof.
  destruct w as [h d]. intros Hlive.
  exists (length h), (World (h ++ [contents h (data db)]) d).
  assert (Some (length h) ≠ data db) as Hne.
  { destruct (data db) as [l|]; [|done]. simpl in Hlive.
    intros [= Heq]. lia. }
  assert (contents (h ++ [contents h (data db)]) (data db)
          = contents h (data db)) as Hsame by by apply contents_app_live.
  assert (contents (h ++ [contents h (data db)]) (Some (length h))
          = contents h (data db)) as Hcopy.
  { simpl. by rewrite list_lookup_middle. }
  split; [apply GetAll_spec|]. split; [done|]. split; [done|].
  split; [exact Hcopy|]. split; [exact Hsame|].
  split; [|split; [|split]].
  - intros key value w2. unfold map_assign. simpl.
    rewrite list_lookup_middle by done. intros [= <-]. simpl.
    etrans; [|exact Hsame]. by apply contents_insert_ne.
  - intros key w2. unfold map_delete. simpl.
    rewrite list_lookup_middle by done. intros [= <-]. simpl.
    etrans; [|exact Hsame]. by apply contents_insert_ne.
  - intros w2 Hframe. etrans; [|exact Hsame].
    destruct (data db) as [l|]; [|done]. simpl in *.
    rewrite Hframe; [done|lia].
  - intros key value Hk. simpl in Hk. rewrite DB_Get_spec, Hk.
    split; [done|]. simpl heap. by rewrite Hcopy.
Qed.

(** C8.  On a store whose mapping is empty, the transaction of the batch
    function that calls [Set("a", v1)], [Set("b", v2)] and [Delete("a")]
    and returns nil leaves a store on which [GetAll] returns exactly
    [{"b": v2}] (the scenario has [v1 = 1] and [v2 = 2]).  In general the
    calls of a batch function act on the working copy one after the
    other: [Tx.Get] and [Tx.Delete] see what an earlier [Tx.Set] stored;
    and when the batch function returns nil, the map of the store becomes
    the working copy, with whatever entries it has then. *)
Theorem C8_transaction_scenario db w (v1 v2 : T) :
  live w (data db) →
  contents (heap w) (data db) = ∅ →
  (∃ db' err w' r w'',
     DB_Transaction db
       (CallSet "a" v1 (CallSet "b" v2 (CallDelete "a" (Return None)))) w
     = Ok (db', err) w' ∧
     DB_GetAll db' w' = Ok r w'' ∧
     contents (heap w'') r = {["b" := v2]}) ∧
  (∀ tx key value w0 w1,
     Tx_Set tx key value w0 = Ok tt w1 →
     Tx_Get tx key w1 = Ok (value, true) w1 ∧
     (∀ w2, Tx_Delete tx key w1 = Ok tt w2 →
            Tx_Get tx key w2 = Ok (zero, false) w2)) ∧
  (∀ fn tx_data w1 w2 db' err w',
     cloneMap (data db) w = Ok tx_data w1 →
     call fn {| tx_db := db; tx_data := tx_data |} w1 = Ok None w2 →
     DB_Transaction db fn w = Ok (db', err) w' →
     data db' = tx_data ∧
     heap w' = heap w2 ∧
     contents (heap w') (data db')
     = (batch_result fn (contents (heap w) (data db))).1).
Proof.
  destruct w as [h d]. simpl. intros Hlive Hempty.
  split; [|split].
  - pose proof (DB_Transaction_spec db
      (CallSet "a" v1 (CallSet "b" v2 (CallDelete "a" (Return None)))) h d)
      as Htx.
    simpl in Htx. rewrite Hempty in Htx.
    destruct (writeData_heap (filepath db) (Some (length h))
      (h ++ [delete "a" (<["b" := v2]> (<["a" := v1]> ∅))]) d)
      as (e & d' & Hw).
    rewrite Hw in Htx. do 5 eexists. split; [exact Htx|].
    split; [apply GetAll_spec|]. simpl.
    rewrite list_lookup_middle by (rewrite length_app; simpl; lia).
    simpl. rewrite list_lookup_middle by done. simpl.
    apply map_eq. intros k.
    destruct (decide (k = "a")) as [->|Ha].
    + by rewrite lookup_delete_eq, lookup_singleton_ne.
    + rewrite lookup_delete_ne by done.
      destruct (decide (k = "b")) as [->|Hb].
      * by rewrite lookup_insert_eq, lookup_singleton_eq.
      * by rewrite !lookup_insert_ne, lookup_singleton_ne.
  - intros tx key value [h0 d0] w1. unfold Tx_Set, map_assign. simpl.
    destruct (tx_data tx) as [l|] eqn:Htx; [|done].
    destruct (h0 !! l) as [o|] eqn:Hl; [|done]. intros [= <-].
    pose proof (lookup_lt_Some _ _ _ Hl) as Hlt.
    unfold Tx_Get, Tx_Delete, bind, map_index, map_delete, ret. simpl.
    rewrite Htx. simpl. rewrite list_lookup_insert_eq by done. simpl.
    rewrite lookup_insert_eq. split; [done|].
    intros w2 [= <-]. simpl.
    rewrite list_lookup_insert_eq by by rewrite length_insert.
    simpl. by rewrite lookup_delete_eq.
  - intros fn tx_data w1 w2 db' err w' Hclone Hcall Htx.
    rewrite cloneMap_spec in Hclone. injection Hclone as <- <-.
    rewrite (call_spec fn db _ d (length h) (contents h (data db))) in Hcall
      by by apply list_lookup_middle.
    rewrite insert_app_r_alt, Nat.sub_diag in Hcall by lia. simpl in Hcall.
    injection Hcall as Hnone <-.
    rewrite DB_Transaction_spec in Htx. simpl in Htx. rewrite Hnone in Htx.
    destruct (writeData_heap (filepath db) (Some (length h))
      (h ++ [(batch_result fn (contents h (data db))).1]) d)
      as (e & d' & Hw).
    rewrite Hw in Htx. injection Htx as <- <- <-. simpl.
    by rewrite list_lookup_middle.
Qed.

End Claims.

(** ** The reference encoding is lossless *)

Lemma bytes_to_pos_to_bytes p :
  bytes_to_pos (pos_to_bytes p ++ [newline]) = Some p.
Proof.
  induction p as [p IH|p IH|]; simpl; [| |done].
  - change (bytes_to_pos (("1"%byte :: pos_to_bytes p) ++ [newline]))
      with (xI <$> bytes_to_pos (pos_to_bytes p ++ [newline])).
    by rewrite IH.
  - change (bytes_to_pos (("0"%byte :: pos_to_bytes p) ++ [newline]))
      with (xO <$> bytes_to_pos (pos_to_bytes p ++ [newline])).
    by rewrite IH.
Qed.

Import IntStore.

Lemma int_unmarshal_marshal (v : option (gmap string Z)) :
  json_unmarshal (pos_to_bytes (encode v) ++ [newline])
  = match v with
    | Some m => DecObj m
    | None => DecNull
    end.
Proof.
  unfold json_unmarshal, int_json.
  rewrite (bytes_to_pos_to_bytes (encode v)). simpl.
  rewrite decode_encode. by destruct v.
Qed.

Lemma int_json_lossless : JSONLossless Z.
Proof.
  intros v b Hm.
  assert (b = pos_to_bytes (encode v)) as ->
    by (unfold json_marshal, int_json in Hm; congruence).
  apply int_unmarshal_marshal.
Qed.

(** [encoding/json] on a mapping that it represents as it is: the
    entries come back from the document, whatever the order in which they
    were written. *)
Lemma stored_spec (l : list (string * Z)) :
  KeyStore.stored l = list_to_map (reverse l).
Proof.
  unfold KeyStore.stored.
  induction l as [|kv l IH] using rev_ind; [done|].
  by rewrite foldl_app, reverse_snoc, IH.
Qed.

Lemma written_representable (m : gmap string Z) :
  KeyStore.representable m →
  KeyStore.written m ≡ₚ map_to_list m ∧
  forallb (λ kv : string * Z, KeyStore.fits kv.2) (KeyStore.written m) = true.
Proof.
  intros Hm. unfold KeyStore.written.
  pose proof (merge_sort_Permutation KeyStore.key_le (map_to_list m)) as Hp.
  assert (∀ kv, kv ∈ merge_sort KeyStore.key_le (map_to_list m) →
                KeyStore.coerce_key kv.1 = kv.1 ∧ KeyStore.fits kv.2 = true)
    as Hin.
  { intros [k z] Hkv. rewrite Hp in Hkv.
    apply elem_of_map_to_list in Hkv. by apply Hm. }
  assert ((λ kv : string * Z, (KeyStore.coerce_key kv.1, kv.2))
            <$> merge_sort KeyStore.key_le (map_to_list m)
          = merge_sort KeyStore.key_le (map_to_list m)) as ->.
  { rewrite <- (list_fmap_id (merge_sort _ _)) at 2.
    apply list_fmap_ext. intros i [k z] Hi. simpl.
    apply list_elem_of_lookup_2, Hin in Hi as [Hk _]. simpl in Hk.
    by rewrite Hk. }
  split; [exact Hp|].
  apply forallb_forall. intros kv Hkv. apply Hin.
  by apply list_elem_of_In.
Qed.

Lemma go_json_round_trips (m : gmap string Z) :
  KeyStore.representable m →
  round_trips (JSON0 := KeyStore.go_json) (Some m).
Proof.
  intros Hm b [= <-].
  destruct (written_representable m Hm) as [Hp Hfits].
  unfold json_unmarshal, KeyStore.go_json.
  rewrite (bytes_to_pos_to_bytes (encode (Some (KeyStore.written m)))).
  simpl. rewrite decode_encode. simpl. rewrite Hfits. f_equal.
  rewrite stored_spec.
  rewrite <- (list_to_map_to_list m) at 2.
  apply list_to_map_proper.
  - rewrite reverse_Permutation, Hp. apply NoDup_fst_map_to_list.
  - by rewrite reverse_Permutation.
Qed.

(** ** The theorems at work on the reference store *)

Lemma C2_get_after_set_witness :
  DB_Set db0 "a" 1%Z opened = Ok None after_set ∧
  DB_Get db0 "a" after_set = Ok (1%Z, true) after_set.
Proof.
  assert (DB_Set db0 "a" 1%Z opened = Ok None after_set) as H
    by (vm_compute; reflexivity).
  split; [exact H|].
  exact (C2_get_after_set db0 "a" 1%Z opened after_set H).
Defined.

Lemma C9_set_twice_witness :
  DB_Set db0 "a" 1%Z opened = Ok None after_set ∧
  DB_Set db0 "a" 1%Z after_set = Ok None after_set.
Proof.
  assert (DB_Set db0 "a" 1%Z opened = Ok None after_set) as H
    by (vm_compute; reflexivity).
  split; [exact H|].
  exact (C9_set_twice db0 "a" 1%Z opened None after_set H).
Defined.

Lemma C7_delete_then_get_then_delete_witness :
  DB_Delete db0 "a" after_set = Ok None after_delete ∧
  DB_Get db0 "a" after_delete = Ok (0%Z, false) after_delete ∧
  DB_Delete db0 "a" after_delete = Ok None after_delete.
Proof.
  assert (DB_Delete db0 "a" after_set = Ok None after_delete) as H
    by (vm_compute; reflexivity).
  split; [exact H|].
  destruct (C7_delete_then_get_then_delete db0 "a" after_set after_delete H)
    as (Hget & Hdel & _).
  split; [exact Hget|exact Hdel].
Defined.

Lemma C1_failed_batch_leaves_store_witness :
  live opened (data db0) ∧
  cloneMap (data db0) opened = Ok (Some 1) (World [∅; ∅] (disk opened)) ∧
  call giving_up {| tx_db := db0; tx_data := Some 1 |}
       (World [∅; ∅] (disk opened))
  = Ok (Some (ErrBatch 7)) (World [∅; {["a" := 1%Z]}] (disk opened)) ∧
  DB_Transaction db0 giving_up opened
  = Ok (db0, Some (ErrBatch 7)) (World [∅; {["a" := 1%Z]}] (disk opened)) ∧
  contents [∅; {["a" := 1%Z]}] (data db0) = contents (heap opened) (data db0).
Proof.
  assert (live opened (data db0)) as Hlive by (simpl; lia).
  assert (cloneMap (data db0) opened
          = Ok (Some 1) (World [∅; ∅] (disk opened))) as Hclone
    by (vm_compute; reflexivity).
  assert (call giving_up {| tx_db := db0; tx_data := Some 1 |}
            (World [∅; ∅] (disk opened))
          = Ok (Some (ErrBatch 7))
               (World [∅; {["a" := 1%Z]}] (disk opened))) as Hcall
    by (vm_compute; reflexivity).
  destruct (C1_failed_batch_leaves_store db0 giving_up opened _ _ _ _
              Hlive Hclone Hcall) as (Htx & Hsame & _).
  repeat split; assumption.
Defined.



Lemma C4_persist_failure_keeps_mutation_witness :
  map_assign (data db1) "a" 1%Z opened_cramped = Ok tt assigned_cramped ∧
  DB_persist db1 assigned_cramped = Ok (Some ErrNoSpace) after_short_write ∧
  mutate db1 (MSet "a" 1%Z) opened_cramped
  = Ok (db1, Some ErrNoSpace) after_short_write ∧
  contents (heap after_short_write) (data db1) = {["a" := 1%Z]} ∧
  files (disk after_short_write) !! filepath db1
  = Some (take 3 (text {["a" := 1%Z]})) ∧
  ∃ w2, Open (filepath db1) after_short_write = Ok (None, Some ErrDecode) w2.
Proof.
  assert (map_assign (data db1) "a" 1%Z opened_cramped
          = Ok tt assigned_cramped) as Hmem by (vm_compute; reflexivity).
  assert (DB_persist db1 assigned_cramped
          = Ok (Some ErrNoSpace) after_short_write) as Hfail
    by (vm_compute; reflexivity).
  destruct (C4_persist_failure_keeps_mutation db1 (MSet "a" 1%Z)
              opened_cramped assigned_cramped db1 ErrNoSpace
              after_short_write (conj Hmem eq_refl) Hfail)
    as (Hmut & Hc & _).
  split; [exact Hmem|]. split; [exact Hfail|]. split; [exact Hmut|].
  split; [exact Hc|]. split; [reflexivity|].
  eexists. vm_compute. reflexivity.
Defined.

(** C4, as the specification has it, says that memory and device are left
    inconsistent by a failed write.  They need not be: a [Set] of the
    value that the key has already, on a store whose file holds the text
    of the mapping and can no longer be opened, returns the error, and
    the file holds the text of the mapping in memory as before. *)
Lemma C4_failed_set_of_the_same_value_counterexample :
  DB_Set db0 "a" 1%Z locked = Ok (Some ErrPermission) locked ∧
  contents (heap locked) (data db0) = {["a" := 1%Z]} ∧
  files (disk locked) !! filepath db0 = Some (text {["a" := 1%Z]}) ∧
  mirrors db0 locked.
Proof.
  split; [vm_compute; reflexivity|]. split; [reflexivity|].
  split; [reflexivity|].
  exists (pos_to_bytes (encode (Some ({["a" := 1%Z]} : gmap string Z)))).
  split; reflexivity.
Qed.

Lemma C5_open_outcomes_witness :
  MkdirAll (Dir location) (disk initial) = inr (disk opened) ∧
  absent (disk initial) location ∧
  ∃ db w', Open location initial = Ok (Some db, None) w' ∧
           filepath db = location ∧
           contents (heap w') (data db) = ∅.
Proof.
  assert (MkdirAll (Dir location) (disk initial) = inr (disk opened))
    as Hmk by (vm_compute; reflexivity).
  assert (absent (disk initial) location) as Habs
    by (split; vm_compute; reflexivity).
  destruct (C5_open_outcomes location initial (disk opened) Hmk)
    as [Hempty _].
  destruct (Hempty (or_introl Habs)) as (db & w' & Hopen & Hfp & _ & Hc & _).
  split; [exact Hmk|]. split; [exact Habs|].
  exists db, w'. repeat split; assumption.
Defined.

Lemma C6_getall_new_map_same_values_witness :
  live after_set (data db0) ∧
  ∃ l w1, DB_GetAll db0 after_set = Ok (Some l) w1 ∧
          Some l ≠ data db0 ∧
          contents (heap w1) (Some l) = contents (heap after_set) (data db0).
Proof.
  assert (live after_set (data db0)) as Hlive by (simpl; lia).
  destruct (C6_getall_new_map_same_values db0 after_set Hlive)
    as (l & w1 & Hall & Hne & _ & Hc & _).
  split; [exact Hlive|]. exists l, w1. repeat split; assumption.
Defined.

Lemma C8_transaction_scenario_witness :
  live opened (data db0) ∧
  contents (heap opened) (data db0) = ∅ ∧
  ∃ db' err w' r w'',
    DB_Transaction db0 scenario opened = Ok (db', err) w' ∧
    DB_GetAll db' w' = Ok r w'' ∧
    contents (heap w'') r = {["b" := 2%Z]}.
Proof.
  assert (live opened (data db0)) as Hlive by (simpl; lia).
  destruct (C8_transaction_scenario db0 opened 1%Z 2%Z Hlive eq_refl)
    as [Hscenario _].
  split; [exact Hlive|]. split; [reflexivity|exact Hscenario].
Defined.



(** Two more runs of [Open]: on a file that does not decode, and on a
    file that holds [null], which gives a store whose map is nil and on
    which [Set] panics. *)
Example Open_malformed :
  Open location
    (World [] (set_files (λ f, <[location := ["{"%byte]]> f) (disk opened)))
  = Ok (None, Some ErrDecode)
       (World [∅] (set_files (λ f, <[location := ["{"%byte]]> f)
                             (disk opened))).
Proof. vm_compute. reflexivity. Qed.

Example Open_null_then_Set :
  let null := pos_to_bytes (encode (@None (gmap string Z))) ++ [newline] in
  let w := World [] (set_files (λ f, <[location := null]> f) (disk opened)) in
  ∃ db w', Open location w = Ok (Some db, None) w' ∧
           data db = None ∧
           DB_Set db "a" 1%Z w' = Panic.
Proof. do 2 eexists. split; [vm_compute; reflexivity|]. by split. Qed.

(** ** Values with reference semantics *)

Import PtrStore.

(** C6, as the specification has it, fails where the element type is a
    pointer: [Get] returns the pointer that the store holds, and a write
    through it changes what every reader of the store finds under the
    key.  Here the store holds a pointer to a cell with 1 under ["a"];
    the caller gets that pointer from [Get] and stores 2 through it. *)
Lemma C6_returned_value_is_shared_counterexample :
  DB_Get db "a" shared = Ok (Some 0, true) shared ∧
  view [1%Z] shared db = {["a" := Some 1%Z]} ∧
  view (store (Some 0) 2%Z [1%Z]) shared db = {["a" := Some 2%Z]} ∧
  ¬ Get_returns_independent_copy.
Proof.
  assert (DB_Get db "a" shared = Ok (Some 0, true) shared) as Hget
    by (vm_compute; reflexivity).
  split; [exact Hget|]. split; [by vm_compute|]. split; [by vm_compute|].
  intros Hclaim.
  assert (live shared (data db)) as Hlive by (simpl; lia).
  pose proof (Hclaim shared db "a" (Some 0) shared [1%Z] 2%Z Hlive Hget)
    as Hview.
  apply (f_equal (λ m, m !! "a")) in Hview.
  vm_compute in Hview. discriminate Hview.
Qed.

(** * Further properties of the code *)

(** ** One write after another *)

Section Writes.
Context {T : Type} `{!GoType T, !JSON T}.
Implicit Types (h : list (gmap string T)) (o : gmap string T).
Implicit Types (r : mapref) (d : filesystem) (w : world T).

(** [writeData] looks at the heap only for the value it is to encode. *)
Lemma writeData_value fp r h r2 h2 d e d' :
  map_value h2 r2 = map_value h r →
  writeData fp r (World h d) = Ok e (World h d') →
  writeData fp r2 (World h2 d) = Ok e (World h2 d').
Proof.
  rewrite !writeData_spec. intros ->.
  repeat case_match; intros [= -> ->]; congruence.
Qed.

(** What a write leaves on the device is the device it found, or that
    device with new content in the file, which it could open. *)
Lemma writeData_device fp r h d e d' :
  writeData fp r (World h d) = Ok e (World h d') →
  d' = d ∨
  ∃ c, d' = set_files (λ f, <[fp := c]> f) d ∧
       OpenFile_create_trunc fp d
       = inr (set_files (λ f, <[fp := []]> f) d).
Proof.
  rewrite writeData_spec.
  destruct (OpenFile_create_trunc fp d) as [e0|fs] eqn:Hopen.
  { intros [= _ ->]. by left. }
  pose proof (OpenFile_inr _ _ _ Hopen) as (-> & _).
  destruct (json_marshal (map_value h r)) as [b|].
  - rewrite Write_after_open.
    destruct (quota d) as [n|]; [case_bool_decide|]; simpl;
      intros [= _ <-]; right; eauto.
  - intros [= _ <-]. right. eauto.
Qed.

(** The content that a write left in the file has no influence on the
    next write: it ends as it would have on the device before. *)
Lemma writeData_after_write fp r0 h0 d e d1 :
  writeData fp r0 (World h0 d) = Ok e (World h0 d1) →
  ∀ r h, writeData fp r (World h d1) = writeData fp r (World h d).
Proof.
  intros Hfirst r h.
  destruct (writeData_device _ _ _ _ _ _ Hfirst) as [->|(c & -> & Hopen)];
    [done|].
  rewrite !writeData_spec, Hopen.
  by rewrite (OpenFile_again fp d _ (λ _, c) Hopen).
Qed.

End Writes.

(** ** Calls on the store, one after another *)

Section Sequences.
Context {T : Type} `{!GoType T, !JSON T}.
Implicit Types (h : list (gmap string T)) (o : gmap string T).
Implicit Types (r : mapref) (d : filesystem) (w : world T) (db : DB).

(** [Set], laid out: the map of the store is a map object, the entry goes
    into it, and the rest is [writeData]. *)
Lemma DB_Set_Ok db key value h d err w' :
  DB_Set db key value (World h d) = Ok err w' →
  ∃ l o d', data db = Some l ∧ h !! l = Some o ∧
            w' = World (<[l := <[key := value]> o]> h) d' ∧
            writeData (filepath db) (Some l)
              (World (<[l := <[key := value]> o]> h) d) = Ok err w'.
Proof.
  rewrite DB_Set_spec. intros H.
  destruct (data db) as [l|] eqn:Hd; [|done].
  destruct (h !! l) as [o|] eqn:Hl; [|done].
  exists l, o. after_writeData H. eauto.
Qed.

Lemma DB_Set_contents db key value w err w' :
  DB_Set db key value w = Ok err w' →
  contents (heap w') (data db)
  = <[key := value]> (contents (heap w) (data db)).
Proof.
  destruct w as [h d]. intros H.
  apply DB_Set_Ok in H as (l & o & d' & Hd & Hl & -> & _).
  pose proof (lookup_lt_Some _ _ _ Hl) as Hlt.
  simpl heap. rewrite Hd, contents_insert_eq by done. simpl. by rewrite Hl.
Qed.

Lemma DB_Delete_contents db key w err w' :
  DB_Delete db key w = Ok err w' →
  contents (heap w') (data db) = delete key (contents (heap w) (data db)).
Proof.
  destruct w as [h d]. rewrite DB_Delete_spec. intros H.
  destruct (data db) as [l|] eqn:Hd; [destruct (h !! l) as [o|] eqn:Hl|];
    after_writeData H; simpl.
  - rewrite list_lookup_insert_eq by by eapply lookup_lt_Some.
    simpl. by rewrite Hl.
  - rewrite Hl. simpl. by rewrite delete_empty.
  - by rewrite delete_empty.
Qed.

(** X1.  [Set(k, v)] changes the mapping at [k] and nowhere else, whether
    or not the file could be written: the mapping afterwards is the one
    before with [v] under [k], and [Get] of any other key returns what it
    returned before. *)
Theorem X1_set_changes_one_key db key value w err w' :
  DB_Set db key value w = Ok err w' →
  contents (heap w') (data db)
  = <[key := value]> (contents (heap w) (data db)) ∧
  ∀ key', key' ≠ key →
          ∃ res, DB_Get db key' w = Ok res w ∧ DB_Get db key' w' = Ok res w'.
Proof.
  intros H. pose proof (DB_Set_contents _ _ _ _ _ _ H) as Hc.
  split; [exact Hc|].
  intros key' Hne. destruct w as [h d], w' as [h' d'].
  rewrite !DB_Get_spec. simpl in Hc.
  rewrite Hc, lookup_insert_ne by done. eauto.
Qed.

(** X2.  [Delete(k)] removes [k] from the mapping and changes nothing
    else, whether or not the file could be written: [Get] of any other
    key returns what it returned before. *)
Theorem X2_delete_changes_one_key db key w err w' :
  DB_Delete db key w = Ok err w' →
  contents (heap w') (data db) = delete key (contents (heap w) (data db)) ∧
  ∀ key', key' ≠ key →
          ∃ res, DB_Get db key' w = Ok res w ∧ DB_Get db key' w' = Ok res w'.
Proof.
  intros H. pose proof (DB_Delete_contents _ _ _ _ _ H) as Hc.
  split; [exact Hc|].
  intros key' Hne. destruct w as [h d], w' as [h' d'].
  rewrite !DB_Get_spec. simpl in Hc.
  rewrite Hc, lookup_delete_ne by done. eauto.
Qed.

(** X3.  Two [Set]s on different keys can be made in either order: the
    second call ends the same way, with the same error if any, and leaves
    the same memory and the same device. *)
Theorem X3_sets_of_different_keys_commute db k1 v1 k2 v2 w e1 wa e2 wb :
  k1 ≠ k2 →
  DB_Set db k1 v1 w = Ok e1 wa →
  DB_Set db k2 v2 w = Ok e2 wb →
  DB_Set db k2 v2 wa = DB_Set db k1 v1 wb.
Proof.
  destruct w as [h d]. intros Hne Ha Hb.
  apply DB_Set_Ok in Ha as (l & o & da & Hd & Hl & -> & Hwa).
  apply DB_Set_Ok in Hb as (l' & o' & db' & Hd' & Hl' & -> & Hwb).
  assert (l' = l) as -> by congruence.
  assert (o' = o) as -> by congruence.
  pose proof (lookup_lt_Some _ _ _ Hl) as Hlt.
  rewrite !DB_Set_spec, Hd.
  rewrite !list_lookup_insert_eq by done.
  rewrite !list_insert_insert_eq.
  rewrite (writeData_after_write _ _ _ _ _ _ Hwa).
  rewrite (writeData_after_write _ _ _ _ _ _ Hwb).
  by rewrite insert_insert_ne.
Qed.

(** X4.  The last [Set] of a key wins, in memory and on the device: after
    a [Set] of the key, whatever its value and however it ended, another
    [Set] of the key ends as it would have without the first. *)
Theorem X4_last_set_wins db key v1 v2 w e1 w1 :
  DB_Set db key v1 w = Ok e1 w1 →
  DB_Set db key v2 w1 = DB_Set db key v2 w.
Proof.
  destruct w as [h d]. intros H1.
  apply DB_Set_Ok in H1 as (l & o & d1 & Hd & Hl & -> & Hw1).
  pose proof (lookup_lt_Some _ _ _ Hl) as Hlt.
  rewrite !DB_Set_spec, Hd, Hl.
  rewrite list_lookup_insert_eq by done.
  rewrite list_insert_insert_eq, insert_insert_eq.
  by rewrite (writeData_after_write _ _ _ _ _ _ Hw1).
Qed.

(** X5.  [Set(k, v)] followed by [Delete(k)] ends as [Delete(k)] alone
    would have, in memory and on the device; afterwards [Get(k)] reports
    the key as missing, and if it was missing before the two calls the
    mapping is the one they started on. *)
Theorem X5_set_then_delete db key value w e1 w1 :
  DB_Set db key value w = Ok e1 w1 →
  DB_Delete db key w1 = DB_Delete db key w ∧
  ∀ e2 w2, DB_Delete db key w1 = Ok e2 w2 →
           DB_Get db key w2 = Ok (zero, false) w2 ∧
           (contents (heap w) (data db) !! key = None →
            contents (heap w2) (data db) = contents (heap w) (data db)).
Proof.
  destruct w as [h d]. intros H1.
  pose proof (DB_Set_contents _ _ _ _ _ _ H1) as Hc1.
  apply DB_Set_Ok in H1 as (l & o & d1 & Hd & Hl & -> & Hw1).
  pose proof (lookup_lt_Some _ _ _ Hl) as Hlt.
  split.
  - rewrite !DB_Delete_spec, Hd, Hl.
    rewrite list_lookup_insert_eq by done.
    rewrite list_insert_insert_eq, delete_insert_eq.
    by rewrite (writeData_after_write _ _ _ _ _ _ Hw1).
  - intros e2 w2 H2.
    pose proof (DB_Delete_contents _ _ _ _ _ H2) as Hc2.
    rewrite Hc1, delete_insert_eq in Hc2. split.
    + destruct w2 as [h2 d2]. rewrite DB_Get_spec. simpl in Hc2.
      by rewrite Hc2, lookup_delete_eq.
    + intros Hmiss. rewrite Hc2. by apply delete_id.
Qed.

End Sequences.

(** ** Loops of calls, and transactions *)

Section Batches.
Context {T : Type} `{!GoType T, !JSON T}.
Implicit Types (h : list (gmap string T)) (o : gmap string T).
Implicit Types (r : mapref) (d : filesystem) (w : world T) (db : DB).

(** The loop of [Set]s stores every entry it is given, on top of what
    the store held, whatever the writes to the file come to. *)
Lemma set_each_spec db entries : ∀ h d l o,
  NoDup entries.*1 →
  data db = Some l →
  h !! l = Some o →
  ∃ d', set_each db entries (World h d)
        = Ok tt (World (<[l := list_to_map entries ∪ o]> h) d').
Proof.
  induction entries as [|[k v] rest IH]; intros h d l o Hnd Hd Hl; simpl.
  - exists d. unfold ret. rewrite (left_id_L ∅ (∪)). by rewrite list_insert_id.
  - rewrite fmap_cons in Hnd. apply NoDup_cons in Hnd as [Hk Hnd].
    pose proof (lookup_lt_Some _ _ _ Hl) as Hlt.
    unfold bind. rewrite DB_Set_spec, Hd, Hl.
    destruct (writeData_heap (filepath db) (Some l)
                (<[l := <[k := v]> o]> h) d) as (e & d1 & ->).
    destruct (IH (<[l := <[k := v]> o]> h) d1 l (<[k := v]> o))
      as (d' & ->); [done|done|by apply list_lookup_insert_eq|].
    exists d'. rewrite list_insert_insert_eq. do 3 f_equal.
    rewrite <- insert_union_l, insert_union_r; [done|].
    by apply not_elem_of_list_to_map_1.
Qed.

(** X6.  On a store with a map, the loop that calls [Set] for every entry
    of a map [users], in whatever order the range goes through them and
    whatever the writes to the file come to, leaves the entries of
    [users] on top of those the store had: on a store that was empty,
    [GetAll] then returns exactly [users], and [Get] finds each of its
    keys with its value and no other key. *)
Theorem X6_set_each_loads_the_map db (users : gmap string T) entries w :
  entries ≡ₚ map_to_list users →
  data db ≠ None →
  live w (data db) →
  ∃ w' r w'',
    set_each db entries w = Ok tt w' ∧
    contents (heap w') (data db) = users ∪ contents (heap w) (data db) ∧
    DB_GetAll db w' = Ok r w'' ∧
    (contents (heap w) (data db) = ∅ →
     contents (heap w'') r = users ∧
     ∀ key, DB_Get db key w'
            = Ok match users !! key with
                 | Some value => (value, true)
                 | None => (zero, false)
                 end w').
Proof.
  destruct w as [h d]. intros Hperm Hsome Hlive.
  destruct (data db) as [l|] eqn:Hd; [|done]. simpl in Hlive.
  destruct (lookup_lt_is_Some_2 h l Hlive) as [o Hl].
  assert (NoDup entries.*1) as Hnd.
  { rewrite Hperm. apply NoDup_fst_map_to_list. }
  destruct (set_each_spec db entries h d l o Hnd Hd Hl) as (d' & Hrun).
  assert (list_to_map entries = users) as Hmap.
  { rewrite (list_to_map_proper _ _ Hnd Hperm).
    apply list_to_map_to_list. }
  rewrite Hmap in Hrun.
  do 3 eexists. split; [exact Hrun|]. simpl.
  rewrite list_lookup_insert_eq, Hl by done. simpl.
  split; [done|]. split; [apply GetAll_spec|].
  intros ->. rewrite (right_id_L ∅ (∪)). simpl.
  rewrite list_lookup_middle by by rewrite length_insert.
  simpl. rewrite Hd. simpl. rewrite list_lookup_insert_eq by done. simpl.
  split; [done|]. intros key. rewrite DB_Get_spec, Hd. simpl.
  rewrite list_lookup_insert_eq by done. done.
Qed.

(** X7.  [Get] and [GetAll] agree on every key: [Get(k)] finds [k]
    exactly when the map that [GetAll] returns has it, with the value it
    has there, and returns the zero value and [false] otherwise. *)
Theorem X7_get_agrees_with_getall db key w :
  ∃ r w1,
    DB_GetAll db w = Ok r w1 ∧
    r ≠ None ∧
    DB_Get db key w
    = Ok match contents (heap w1) r !! key with
         | Some value => (value, true)
         | None => (zero, false)
         end w.
Proof.
  destruct w as [h d]. do 2 eexists.
  split; [apply GetAll_spec|]. split; [done|].
  rewrite DB_Get_spec. simpl. by rewrite list_lookup_middle.
Qed.

(** X8.  A transaction starts from the mapping of the store: on the
    working copy that [Transaction] clones, [Tx.Get] of a key returns what
    [Get] on the store returns. *)
Theorem X8_tx_get_reads_the_snapshot db key w tx_data w1 :
  cloneMap (data db) w = Ok tx_data w1 →
  ∃ res, DB_Get db key w = Ok res w ∧
         Tx_Get {| tx_db := db; tx_data := tx_data |} key w1 = Ok res w1.
Proof.
  destruct w as [h d]. rewrite cloneMap_spec. intros [= <- <-].
  rewrite DB_Get_spec. eexists. split; [done|].
  unfold Tx_Get, bind, map_index, ret. simpl.
  rewrite list_lookup_middle by done. simpl.
  by destruct (contents h (data db) !! key).
Qed.

(** X9.  The calls that a batch function makes on its transaction do no
    input or output and touch no map but the working copy: when the
    function returns, the device is as it was, no map object has been
    allocated, and every map object other than the working copy has the
    entries it had. *)
Theorem X9_batch_touches_the_working_copy_only (fn : batch T) :
  ∀ (tx : Tx) w err w',
    call fn tx w = Ok err w' →
    disk w' = disk w ∧
    length (heap w') = length (heap w) ∧
    ∀ l, tx_data tx ≠ Some l → heap w' !! l = heap w !! l.
Proof.
  induction fn as [e|key next IH|key value next IH|key next IH];
    intros tx [h d] err w' Hcall; simpl in Hcall.
  - injection Hcall as <- <-. auto.
  - unfold bind, Tx_Get, bind, map_index, ret in Hcall. simpl in Hcall.
    destruct (contents h (tx_data tx) !! key); by apply IH in Hcall.
  - unfold bind, Tx_Set, map_assign in Hcall. simpl in Hcall.
    destruct (tx_data tx) as [l0|] eqn:Htx; [|done].
    destruct (h !! l0) as [o|]; [|done].
    apply IH in Hcall as (Hd & Hlen & Hframe). simpl in *.
    rewrite length_insert in Hlen. split; [done|]. split; [done|].
    intros l Hl. rewrite Hframe by (rewrite Htx; done).
    apply list_lookup_insert_ne. congruence.
  - unfold bind, Tx_Delete, map_delete in Hcall. simpl in Hcall.
    destruct (tx_data tx) as [l0|] eqn:Htx;
      [|apply IH in Hcall; by rewrite Htx in Hcall].
    destruct (h !! l0) as [o|];
      [|apply IH in Hcall; by rewrite Htx in Hcall].
    apply IH in Hcall as (Hd & Hlen & Hframe). simpl in *.
    rewrite length_insert in Hlen. split; [done|]. split; [done|].
    intros l Hl. rewrite Hframe by (rewrite Htx; done).
    apply list_lookup_insert_ne. congruence.
Qed.

End Batches.

(** ** A transaction and the same calls made directly *)

Section Direct.
Context {T : Type} `{!GoType T, !JSON T}.
Implicit Types (h : list (gmap string T)) (o : gmap string T).
Implicit Types (r : mapref) (d : filesystem) (w : world T) (db : DB).

Lemma batch_of_ops_result (ops : list (op T)) : ∀ o,
  batch_result (batch_of_ops ops) o = (foldl apply_op o ops, None).
Proof.
  induction ops as [|[key value|key] rest IH]; intros o; simpl;
    [done|apply IH..].
Qed.

(** The calls made one after the other bring the map of the store to the
    mapping that the calls describe; the device they leave takes the next
    write as the device they started on would; and it is left as it is by
    a further write of the same mapping. *)
Lemma do_each_spec db (ops : list (op T)) : ∀ h d l o,
  data db = Some l →
  h !! l = Some o →
  ∃ d', do_each db ops (World h d)
        = Ok tt (World (<[l := foldl apply_op o ops]> h) d') ∧
        (∀ r h', writeData (filepath db) r (World h' d')
                 = writeData (filepath db) r (World h' d)) ∧
        (ops ≠ [] →
         ∃ e, writeData (filepath db) (Some l)
                (World (<[l := foldl apply_op o ops]> h) d')
              = Ok e (World (<[l := foldl apply_op o ops]> h) d')).
Proof.
  induction ops as [|a rest IH]; intros h d l o Hd Hl.
  { exists d. simpl. unfold ret. rewrite list_insert_id by done. done. }
  pose proof (lookup_lt_Some _ _ _ Hl) as Hlt.
  assert (∃ e d1,
    writeData (filepath db) (Some l) (World (<[l := apply_op o a]> h) d)
    = Ok e (World (<[l := apply_op o a]> h) d1) ∧
    do_each db (a :: rest) (World h d)
    = do_each db rest (World (<[l := apply_op o a]> h) d1))
    as (e & d1 & Hw & ->).
  { destruct (writeData_heap (filepath db) (Some l)
                (<[l := apply_op o a]> h) d) as (e & d1 & Hw).
    exists e, d1. split; [exact Hw|].
    destruct a as [key value|key]; simpl in Hw |- *; unfold bind.
    - by rewrite DB_Set_spec, Hd, Hl, Hw.
    - by rewrite DB_Delete_spec, Hd, Hl, Hw. }
  destruct (IH (<[l := apply_op o a]> h) d1 l (apply_op o a) Hd)
    as (d' & Hrun & Hnext & Hstable);
    [by apply list_lookup_insert_eq|].
  rewrite list_insert_insert_eq in Hrun, Hstable.
  exists d'. simpl. split; [exact Hrun|]. split.
  - intros r h'. rewrite Hnext.
    apply (writeData_after_write _ _ _ _ _ _ Hw).
  - intros _. destruct rest as [|b rest'].
    + simpl in *. unfold ret in Hrun.
      assert (d1 = d') as <- by congruence.
      exists e. by apply (writeData_again _ _ _ _ _ _ _ Hw).
    + by apply Hstable.
Qed.

(** X10.  On a store with a map, a transaction whose batch function makes
    a list of [Set] and [Delete] calls and returns nil leaves the store
    with the mapping that the same calls leave when they are made one
    after the other on the store itself, namely the mapping the calls
    describe; and unless the list is empty it leaves the device as they
    do, whatever the writes come to. *)
Theorem X10_transaction_as_direct_calls db (ops : list (op T)) w :
  data db ≠ None →
  live w (data db) →
  ∃ w1 db' err w2,
    do_each db ops w = Ok tt w1 ∧
    DB_Transaction db (batch_of_ops ops) w = Ok (db', err) w2 ∧
    contents (heap w1) (data db)
    = foldl apply_op (contents (heap w) (data db)) ops ∧
    contents (heap w2) (data db') = contents (heap w1) (data db) ∧
    (ops ≠ [] → disk w2 = disk w1).
Proof.
  destruct w as [h d]. intros Hsome Hlive.
  destruct (data db) as [l|] eqn:Hd; [|done]. simpl in Hlive.
  destruct (lookup_lt_is_Some_2 h l Hlive) as [o Hl].
  destruct (do_each_spec db ops h d l o Hd Hl)
    as (d' & Hrun & Hnext & Hstable).
  pose proof (DB_Transaction_spec db (batch_of_ops ops) h d) as Htx.
  simpl in Htx. rewrite Hd in Htx. simpl in Htx.
  rewrite Hl, batch_of_ops_result in Htx. simpl in Htx.
  destruct (writeData_heap (filepath db) (Some (length h))
              (h ++ [foldl apply_op o ops]) d) as (e & d2 & Hw).
  rewrite Hw in Htx.
  do 4 eexists. split; [exact Hrun|]. split; [exact Htx|]. simpl.
  rewrite list_lookup_insert_eq, Hl by done. simpl.
  rewrite list_lookup_middle by done. simpl.
  split; [done|]. split; [done|].
  intros Hne. destruct (Hstable Hne) as (e' & Hstay).
  rewrite Hnext in Hstay.
  assert (writeData (filepath db) (Some (length h))
            (World (h ++ [foldl apply_op o ops]) d)
          = Ok e' (World (h ++ [foldl apply_op o ops]) d')) as Hw'.
  { eapply writeData_value; [|exact Hstay]. simpl.
    by rewrite list_lookup_middle, list_lookup_insert_eq. }
  congruence.
Qed.

End Direct.

(** ** Opening a store *)

Section Opening.
Context {T : Type} `{!GoType T, !JSON T}.
Implicit Types (h : list (gmap string T)) (o : gmap string T).
Implicit Types (r : mapref) (d : filesystem) (w : world T) (db : DB).

(** What [ReadFile] returns for a file that can be read. *)
Lemma ReadFile_holds fs fs' p b :
  holds fs p b →
  MkdirAll (Dir p) fs = inr fs' →
  ReadFile p fs' = inr b.
Proof.
  intros (Hp & Hsome & Hok) Hmk.
  pose proof (MkdirAll_not_dir _ _ _ Hmk Hp) as Hnd.
  pose proof (MkdirAll_inr _ _ _ Hmk) as (Hf & Hden & _).
  unfold ReadFile. rewrite Hnd, Hf, Hsome, Hden.
  by rewrite bool_decide_eq_false_2.
Qed.

(** X11.  Once the directory of the location is in place, [Open] on a
    readable file that is not empty returns what the file decodes to: for
    an object, a store with a new map that has exactly the entries of the
    object; for [null], a store whose map is nil.  The device is left
    with the directories and nothing else changed. *)
Theorem X11_open_loads_the_file fp w fs b :
  MkdirAll (Dir fp) (disk w) = inr fs →
  holds (disk w) fp b →
  b ≠ [] →
  (∀ m, json_unmarshal b = DecObj m →
        ∃ db w', Open fp w = Ok (Some db, None) w' ∧
                 filepath db = fp ∧ data db ≠ None ∧ live w' (data db) ∧
                 contents (heap w') (data db) = m ∧ disk w' = fs) ∧
  (json_unmarshal b = DecNull →
   ∃ w', Open fp w = Ok (Some {| filepath := fp; data := None |}, None) w' ∧
         disk w' = fs).
Proof.
  destruct w as [h d]. simpl. intros Hmk Hholds Hb.
  pose proof (ReadFile_holds _ _ _ _ Hholds Hmk) as Hread.
  assert (bool_decide (length b = 0) = false) as Hlen
    by (apply bool_decide_eq_false; by destruct b).
  split.
  - intros m Hdec.
    exists {| filepath := fp; data := Some (length h) |}, (World (h ++ [m]) fs).
    rewrite Open_spec, Hmk, readData_spec, Hread, Hlen, Hdec. simpl.
    rewrite list_lookup_middle, length_app by done. simpl.
    repeat split; auto. lia.
  - intros Hdec. exists (World (h ++ [∅]) fs).
    by rewrite Open_spec, Hmk, readData_spec, Hread, Hlen, Hdec.
Qed.

(** X12.  [Open] always returns, with a store or with an error and never
    with both or neither; a store it returns is at the location asked
    for and its map is live. *)
Theorem X12_open_returns_a_store_or_an_error fp w :
  ∃ odb oerr w',
    Open fp w = Ok (odb, oerr) w' ∧
    (odb = None ↔ oerr ≠ None) ∧
    (∀ db, odb = Some db → filepath db = fp ∧ live w' (data db)).
Proof.
  destruct w as [h d]. rewrite Open_spec.
  destruct (MkdirAll (Dir fp) d) as [[e fs]|fs].
  { do 3 eexists. split; [done|]. split; [by split|]. by intros db [=]. }
  rewrite readData_spec.
  assert (live (World (h ++ [∅]) fs) (Some (length h))) as Hlive
    by (simpl; rewrite length_app; simpl; lia).
  destruct (ReadFile fp fs) as [e|b].
  { destruct (IsNotExist e); do 3 eexists; (split; [done|]).
    - split; [by split|]. by intros db [= <-].
    - split; [by split|]. by intros db [=]. }
  case_bool_decide.
  { do 3 eexists. split; [done|]. split; [by split|]. by intros db [= <-]. }
  destruct (json_unmarshal b) as [| |m]; do 3 eexists; (split; [done|]).
  - split; [by split|]. by intros db [=].
  - split; [by split|]. by intros db [= <-].
  - split; [by split|]. intros db [= <-]. split; [done|].
    simpl. rewrite length_app. simpl. lia.
Qed.

(** X13.  [Open] hands on the error of the system and returns no store:
    the error of making the directory, and the error of reading the file
    when it is any other than the file not existing.  No file is changed;
    what may have changed on the device is that directories on the way to
    the directory of the location have been made, also when making the
    directory failed on a later component; and in that case no map has
    been allocated. *)
Theorem X13_open_reports_io_errors fp w e :
  (∃ fs, MkdirAll (Dir fp) (disk w) = inl (e, fs)) ∨
  (∃ fs, MkdirAll (Dir fp) (disk w) = inr fs ∧
         ReadFile fp fs = inl e ∧ IsNotExist e = false) →
  ∃ w', Open fp w = Ok (None, Some e) w' ∧
        files (disk w') = files (disk w) ∧
        (∀ q, q ∈ dirs (disk w') → q ∈ dirs (disk w) ∨ q `prefix_of` Dir fp) ∧
        (∀ fs, MkdirAll (Dir fp) (disk w) = inl (e, fs) →
               heap w' = heap w ∧ disk w' = fs).
Proof.
  destruct w as [h d]. simpl. rewrite Open_spec.
  intros [(fs & Hmk)|(fs & Hmk & Hread & Hne)]; rewrite Hmk.
  - exists (World h fs). apply MkdirAll_inl in Hmk as [Hf Hnew]. simpl.
    split; [done|]. split; [done|]. split; [done|].
    by intros fs' [= <-].
  - rewrite readData_spec, Hread, Hne.
    apply MkdirAll_inr in Hmk as (Hf & _ & _ & _ & Hnew & _).
    exists (World (h ++ [∅]) fs). by repeat split.
Qed.

(** X15.  [Open] can be repeated: a second [Open] of the location, on the
    state the first one left, succeeds too, leaves the device as it is,
    and returns a store with the same mapping, in a map object of its
    own. *)
Theorem X15_open_again db fp w w1 :
  Open fp w = Ok (Some db, None) w1 →
  ∃ db2 w2, Open fp w1 = Ok (Some db2, None) w2 ∧
            disk w2 = disk w1 ∧
            contents (heap w2) (data db2) = contents (heap w1) (data db) ∧
            contents (heap w2) (data db) = contents (heap w1) (data db) ∧
            (data db ≠ None → data db2 ≠ data db).
Proof.
  destruct w as [h d]. rewrite Open_spec.
  destruct (MkdirAll (Dir fp) d) as [[e fs]|fs] eqn:Hmk; [done|].
  apply MkdirAll_inr in Hmk as (_ & _ & _ & _ & _ & Hdir).
  rewrite readData_spec. intros Hfirst.
  assert (∀ m, (h ++ [m]) !! length h = Some m) as Hmid
    by (intros m; by apply list_lookup_middle).
  assert (∀ m m', ((h ++ [m]) ++ [m']) !! length (h ++ [m]) = Some m')
    as Hmid2 by (intros m m'; by apply list_lookup_middle).
  assert (∀ m m', ((h ++ [m]) ++ [m']) !! length h = Some m) as Hold.
  { intros m m'. rewrite lookup_app_l; [done|].
    rewrite length_app. simpl. lia. }
  assert (∀ m, Some (length (h ++ [m])) ≠ Some (length h)) as Hnew.
  { intros m [= Heq]. rewrite length_app in Heq. simpl in Heq. lia. }
  destruct (ReadFile fp fs) as [e|b] eqn:Hread.
  - destruct (IsNotExist e) eqn:He; [|done].
    injection Hfirst as <- <-.
    rewrite Open_spec, (MkdirAll_dir _ _ Hdir), readData_spec, Hread, He.
    do 2 eexists. split; [done|]. simpl. by rewrite Hmid, Hmid2, Hold.
  - destruct (bool_decide (length b = 0)) eqn:Hlen.
    { injection Hfirst as <- <-.
      rewrite Open_spec, (MkdirAll_dir _ _ Hdir), readData_spec, Hread, Hlen.
      do 2 eexists. split; [done|]. simpl. by rewrite Hmid, Hmid2, Hold. }
    destruct (json_unmarshal b) as [| |m] eqn:Hdec; [done|..];
      injection Hfirst as <- <-;
      rewrite Open_spec, (MkdirAll_dir _ _ Hdir), readData_spec,
        Hread, Hlen, Hdec;
      do 2 eexists; (split; [done|]); simpl;
      by rewrite ?Hmid, ?Hmid2, ?Hold.
Qed.

End Opening.

(** ** A value that cannot be encoded *)

Section Encoding.
Context {T : Type} `{!GoType T, !JSON T}.
Implicit Types (h : list (gmap string T)) (o : gmap string T).
Implicit Types (r : mapref) (d : filesystem) (w : world T) (db : DB).

(** The encoder's error comes after the file has been opened and cut to
    nothing, and before anything is written to it. *)
Lemma writeData_ErrEncode fp r h d w' :
  writeData fp r (World h d) = Ok (Some ErrEncode) w' →
  w' = World h (set_files (λ f, <[fp := []]> f) d) ∧
  is_dir d (Dir fp) = true ∧ is_dir d fp = false ∧ fp ∉ denied d.
Proof.
  rewrite writeData_spec. intros H.
  destruct (OpenFile_create_trunc fp d) as [e|fs] eqn:Hopen.
  { injection H as -> <-. unfold OpenFile_create_trunc in Hopen.
    repeat case_match; congruence. }
  apply OpenFile_inr in Hopen as (-> & Hnd & Hpd & Hden).
  destruct (json_marshal (map_value h r)) as [b|].
  - rewrite Write_after_open in H.
    destruct (quota d) as [n|]; [case_bool_decide|]; by simpl in H.
  - by injection H as <-.
Qed.

(** X14.  When a [Set], a [Delete] or a [Transaction] whose batch
    function succeeded returns the error of the encoder, the mapping in
    memory is the new one, and the file, cut to nothing before the
    encoding was tried, is empty: a new [Open] of the location succeeds,
    without error, with an empty store. *)
Theorem X14_failed_encoding_empties_the_file db mu w db' w' :
  live w (data db) →
  (effect mu (contents (heap w) (data db))).2 = None →
  mutate db mu w = Ok (db', Some ErrEncode) w' →
  contents (heap w') (data db')
  = (effect mu (contents (heap w) (data db))).1 ∧
  files (disk w') !! filepath db' = Some [] ∧
  ∃ db2 w2, Open (filepath db') w' = Ok (Some db2, None) w2 ∧
            contents (heap w2) (data db2) = ∅.
Proof.
  destruct w as [h d]. simpl. intros Hlive Hok Hmut.
  destruct (mutate_commit _ _ _ _ _ _ _ Hlive Hmut Hok)
    as (h' & Hw & Hc & Hfp & _).
  apply writeData_ErrEncode in Hw as (-> & Hpd & Hnd & Hden).
  rewrite Hfp. simpl. split; [done|].
  split; [by rewrite lookup_insert_eq|].
  rewrite Open_spec, MkdirAll_dir by by rewrite is_dir_set_files.
  rewrite readData_spec. unfold ReadFile.
  rewrite is_dir_set_files, Hnd. simpl. rewrite lookup_insert_eq.
  rewrite bool_decide_eq_false_2 by done. simpl.
  do 2 eexists. split; [done|]. simpl. by rewrite list_lookup_middle.
Qed.

End Encoding.

(** ** Copies of a map, and the nil map *)

Section Maps.
Context {T : Type} `{!GoType T, !JSON T}.
Implicit Types (h : list (gmap string T)) (o : gmap string T).
Implicit Types (r : mapref) (d : filesystem) (w : world T) (db : DB).

(** X16.  [cloneMap] returns a map that is never nil, also for a nil
    original, that is a new object with exactly the entries of the
    original, and it changes nothing else.  The two are independent of
    each other from then on: whatever is done to the copy, the original
    keeps its entries, and whatever is done to the original, the copy
    keeps those it was given. *)
Theorem X16_clone_is_independent r w c w1 :
  live w r →
  cloneMap r w = Ok c w1 →
  c ≠ None ∧ c ≠ r ∧ live w1 c ∧ live w1 r ∧
  disk w1 = disk w ∧
  contents (heap w1) c = contents (heap w) r ∧
  contents (heap w1) r = contents (heap w) r ∧
  (∀ w2, (∀ l, c ≠ Some l → heap w2 !! l = heap w1 !! l) →
         contents (heap w2) r = contents (heap w) r) ∧
  (∀ w2, (∀ l, r ≠ Some l → heap w2 !! l = heap w1 !! l) →
         contents (heap w2) c = contents (heap w) r).
Proof.
  destruct w as [h d]. intros Hlive. rewrite cloneMap_spec.
  intros [= <- <-]. simpl.
  assert (Some (length h) ≠ r) as Hne.
  { destruct r as [l|]; [|done]. simpl in Hlive. intros [= Heq]. lia. }
  assert (contents (h ++ [contents h r]) r = contents h r) as Hsame
    by by apply contents_app_live.
  rewrite list_lookup_middle by done. simpl.
  split; [done|]. split; [done|].
  split; [rewrite length_app; simpl; lia|].
  split; [destruct r; simpl in *; [rewrite length_app; simpl; lia|done]|].
  split; [done|]. split; [done|]. split; [exact Hsame|]. split.
  - intros w2 Hframe. etrans; [|exact Hsame].
    destruct r as [l|]; [|done]. simpl in *.
    rewrite Hframe; [done|]. intros [= Heq]. lia.
  - intros w2 Hframe.
    rewrite Hframe by (intros Heq; by apply Hne).
    by rewrite list_lookup_middle.
Qed.

(** X17.  Once the directory of the location is in place, [Open] on a
    readable file whose content decodes as [null] returns, without error,
    a store whose map is nil.  On that store [Get] reports every key as
    missing, [GetAll] returns a map that is empty and not nil, and
    [Delete] returns, having left the heap alone; but [Set] panics. *)
Theorem X17_null_file_gives_a_store_without_a_map fp w fs b :
  MkdirAll (Dir fp) (disk w) = inr fs →
  holds (disk w) fp b →
  b ≠ [] →
  json_unmarshal b = DecNull →
  ∃ db w',
    Open fp w = Ok (Some db, None) w' ∧
    data db = None ∧
    (∀ key, DB_Get db key w' = Ok (zero, false) w') ∧
    (∀ key value, DB_Set db key value w' = Panic) ∧
    (∃ l w1, DB_GetAll db w' = Ok (Some l) w1 ∧
             contents (heap w1) (Some l) = ∅) ∧
    (∀ key, ∃ err w1, DB_Delete db key w' = Ok err w1 ∧ heap w1 = heap w').
Proof.
  destruct w as [h d]. simpl. intros Hmk Hholds Hb Hdec.
  pose proof (ReadFile_holds _ _ _ _ Hholds Hmk) as Hread.
  exists {| filepath := fp; data := None |}, (World (h ++ [∅]) fs).
  split.
  { rewrite Open_spec, Hmk, readData_spec, Hread, Hdec.
    rewrite bool_decide_eq_false_2; [done|]. by destruct b. }
  split; [done|]. split; [intros key; by rewrite DB_Get_spec|].
  split; [intros key value; by rewrite DB_Set_spec|].
  split.
  - do 2 eexists. split; [apply GetAll_spec|]. simpl.
    by rewrite list_lookup_middle.
  - intros key. rewrite DB_Delete_spec. simpl.
    destruct (writeData_heap fp None (h ++ [∅]) fs) as (e & d' & ->).
    by do 2 eexists.
Qed.

(** X18.  [Transaction] always returns, also on a store whose map is nil:
    the calls of the batch function go to a working copy that is never
    nil.  When the batch function fails the store is the one given and
    the error is its error; when it succeeds the store has a map that is
    live and not nil, so that a [Set] on it does not panic. *)
Theorem X18_transaction_returns db fn w :
  ∃ db' err w',
    DB_Transaction db fn w = Ok (db', err) w' ∧
    filepath db' = filepath db ∧
    (∀ e, (batch_result fn (contents (heap w) (data db))).2 = Some e →
          db' = db ∧ err = Some e) ∧
    ((batch_result fn (contents (heap w) (data db))).2 = None →
     data db' ≠ None ∧ live w' (data db') ∧
     ∀ key value, DB_Set db' key value w' ≠ Panic).
Proof.
  destruct w as [h d]. pose proof (DB_Transaction_spec db fn h d) as Htx.
  simpl in *.
  destruct (batch_result fn (contents h (data db))) as [m [e|]]; simpl in *.
  - do 3 eexists. split; [exact Htx|]. split; [done|].
    split; [by intros e' [= <-]|done].
  - destruct (writeData_heap (filepath db) (Some (length h)) (h ++ [m]) d)
      as (e & d' & Hw).
    rewrite Hw in Htx. do 3 eexists. split; [exact Htx|]. split; [done|].
    split; [done|]. intros _. simpl. split; [done|].
    split; [rewrite length_app; simpl; lia|].
    intros key value. rewrite DB_Set_spec. simpl.
    rewrite list_lookup_middle by done.
    by destruct (writeData_heap (filepath db) (Some (length h))
                   (<[length h := <[key := value]> m]> (h ++ [m])) d')
      as (e' & d'' & ->).
Qed.

End Maps.

(** ** The further properties at work on the reference store *)

Lemma X1_set_changes_one_key_witness :
  DB_Set db0 "b" 2%Z after_set = Ok None after_both ∧
  contents (heap after_both) (data db0)
  = <["b" := 2%Z]> (contents (heap after_set) (data db0)) ∧
  ∃ res, DB_Get db0 "a" after_set = Ok res after_set ∧
         DB_Get db0 "a" after_both = Ok res after_both.
Proof.
  assert (DB_Set db0 "b" 2%Z after_set = Ok None after_both) as H
    by (vm_compute; reflexivity).
  destruct (X1_set_changes_one_key db0 "b" 2%Z after_set None after_both H)
    as [Hc Hother].
  split; [exact H|]. split; [exact Hc|]. by apply Hother.
Defined.

Lemma X2_delete_changes_one_key_witness :
  DB_Delete db0 "b" after_both = Ok None after_set ∧
  contents (heap after_set) (data db0)
  = delete "b" (contents (heap after_both) (data db0)) ∧
  ∃ res, DB_Get db0 "a" after_both = Ok res after_both ∧
         DB_Get db0 "a" after_set = Ok res after_set.
Proof.
  assert (DB_Delete db0 "b" after_both = Ok None after_set) as H
    by (vm_compute; reflexivity).
  destruct (X2_delete_changes_one_key db0 "b" after_both None after_set H)
    as [Hc Hother].
  split; [exact H|]. split; [exact Hc|]. by apply Hother.
Defined.

Lemma X3_sets_of_different_keys_commute_witness :
  "a" ≠ "b" ∧
  DB_Set db0 "a" 1%Z opened = Ok None after_set ∧
  DB_Set db0 "b" 2%Z opened = Ok None after_set_b ∧
  DB_Set db0 "b" 2%Z after_set = DB_Set db0 "a" 1%Z after_set_b.
Proof.
  assert ("a" ≠ "b") as Hne by done.
  assert (DB_Set db0 "a" 1%Z opened = Ok None after_set) as Ha
    by (vm_compute; reflexivity).
  assert (DB_Set db0 "b" 2%Z opened = Ok None after_set_b) as Hb
    by (vm_compute; reflexivity).
  split; [exact Hne|]. split; [exact Ha|]. split; [exact Hb|].
  exact (X3_sets_of_different_keys_commute db0 "a" 1%Z "b" 2%Z opened
           None after_set None after_set_b Hne Ha Hb).
Defined.

Lemma X4_last_set_wins_witness :
  DB_Set db0 "a" 5%Z opened = Ok None after_set5 ∧
  DB_Set db0 "a" 1%Z after_set5 = DB_Set db0 "a" 1%Z opened.
Proof.
  assert (DB_Set db0 "a" 5%Z opened = Ok None after_set5) as H
    by (vm_compute; reflexivity).
  split; [exact H|].
  exact (X4_last_set_wins db0 "a" 5%Z 1%Z opened None after_set5 H).
Defined.

Lemma X5_set_then_delete_witness :
  DB_Set db0 "a" 1%Z opened = Ok None after_set ∧
  DB_Delete db0 "a" after_set = DB_Delete db0 "a" opened ∧
  DB_Get db0 "a" after_delete = Ok (0%Z, false) after_delete.
Proof.
  assert (DB_Set db0 "a" 1%Z opened = Ok None after_set) as H
    by (vm_compute; reflexivity).
  assert (DB_Delete db0 "a" after_set = Ok None after_delete) as Hdel
    by (vm_compute; reflexivity).
  destruct (X5_set_then_delete db0 "a" 1%Z opened None after_set H)
    as [Hsame Hafter].
  destruct (Hafter None after_delete Hdel) as [Hget _].
  split; [exact H|]. split; [exact Hsame|exact Hget].
Defined.

Lemma X6_set_each_loads_the_map_witness :
  reverse (map_to_list users) ≡ₚ map_to_list users ∧
  data db0 ≠ None ∧
  live opened (data db0) ∧
  ∃ w' r w'',
    set_each db0 (reverse (map_to_list users)) opened = Ok tt w' ∧
    DB_GetAll db0 w' = Ok r w'' ∧
    contents (heap w'') r = users.
Proof.
  assert (reverse (map_to_list users) ≡ₚ map_to_list users) as Hperm
    by apply reverse_Permutation.
  assert (data db0 ≠ None) as Hsome by done.
  assert (live opened (data db0)) as Hlive by (simpl; lia).
  destruct (X6_set_each_loads_the_map db0 users _ opened Hperm Hsome Hlive)
    as (w' & r & w'' & Hrun & _ & Hall & Hempty).
  destruct (Hempty eq_refl) as [Hc _].
  split; [exact Hperm|]. split; [exact Hsome|]. split; [exact Hlive|].
  exists w', r, w''. split; [exact Hrun|]. split; [exact Hall|exact Hc].
Defined.

Lemma X8_tx_get_reads_the_snapshot_witness :
  cloneMap (data db0) after_set
  = Ok (Some 1) (World [{["a" := 1%Z]}; {["a" := 1%Z]}] (disk after_set)) ∧
  ∃ res, DB_Get db0 "a" after_set = Ok res after_set ∧
         Tx_Get {| tx_db := db0; tx_data := Some 1 |} "a"
           (World [{["a" := 1%Z]}; {["a" := 1%Z]}] (disk after_set))
         = Ok res (World [{["a" := 1%Z]}; {["a" := 1%Z]}] (disk after_set)).
Proof.
  assert (cloneMap (data db0) after_set
          = Ok (Some 1)
               (World [{["a" := 1%Z]}; {["a" := 1%Z]}] (disk after_set)))
    as H by (vm_compute; reflexivity).
  split; [exact H|].
  exact (X8_tx_get_reads_the_snapshot db0 "a" after_set _ _ H).
Defined.

Lemma X9_batch_touches_the_working_copy_only_witness :
  call giving_up {| tx_db := db0; tx_data := Some 1 |}
       (World [∅; ∅] (disk opened))
  = Ok (Some (ErrBatch 7)) (World [∅; {["a" := 1%Z]}] (disk opened)) ∧
  disk (World [∅; {["a" := 1%Z]}] (disk opened) : world Z)
  = disk (World [∅; ∅] (disk opened) : world Z) ∧
  (World [∅; {["a" := 1%Z]}] (disk opened) : world Z).(heap) !! 0
  = (World [∅; ∅] (disk opened) : world Z).(heap) !! 0.
Proof.
  assert (call giving_up {| tx_db := db0; tx_data := Some 1 |}
            (World [∅; ∅] (disk opened))
          = Ok (Some (ErrBatch 7))
               (World [∅; {["a" := 1%Z]}] (disk opened))) as H
    by (vm_compute; reflexivity).
  destruct (X9_batch_touches_the_working_copy_only giving_up _ _ _ _ H)
    as (Hd & _ & Hframe).
  split; [exact H|]. split; [exact Hd|]. by apply Hframe.
Defined.

Lemma X10_transaction_as_direct_calls_witness :
  data db0 ≠ None ∧
  live opened (data db0) ∧
  ∃ w1 db' err w2,
    do_each db0 calls opened = Ok tt w1 ∧
    DB_Transaction db0 (batch_of_ops calls) opened = Ok (db', err) w2 ∧
    contents (heap w2) (data db') = contents (heap w1) (data db0) ∧
    disk w2 = disk w1.
Proof.
  assert (data db0 ≠ None) as Hsome by done.
  assert (live opened (data db0)) as Hlive by (simpl; lia).
  destruct (X10_transaction_as_direct_calls db0 calls opened Hsome Hlive)
    as (w1 & db' & err & w2 & Hrun & Htx & _ & Hc & Hdisk).
  split; [exact Hsome|]. split; [exact Hlive|].
  exists w1, db', err, w2.
  split; [exact Hrun|]. split; [exact Htx|]. split; [exact Hc|].
  by apply Hdisk.
Defined.

Lemma X11_open_loads_the_file_witness :
  MkdirAll (Dir location) (disk after_set) = inr (disk after_set) ∧
  holds (disk after_set) location (text {["a" := 1%Z]}) ∧
  text {["a" := 1%Z]} ≠ [] ∧
  json_unmarshal (text {["a" := 1%Z]}) = DecObj {["a" := 1%Z]} ∧
  ∃ db w', Open location after_set = Ok (Some db, None) w' ∧
           contents (heap w') (data db) = {["a" := 1%Z]}.
Proof.
  assert (MkdirAll (Dir location) (disk after_set) = inr (disk after_set))
    as Hmk by (vm_compute; reflexivity).
  assert (holds (disk after_set) location (text {["a" := 1%Z]})) as Hholds.
  { split; [vm_compute; reflexivity|]. split; [vm_compute; reflexivity|].
    simpl. apply not_elem_of_empty. }
  assert (text {["a" := 1%Z]} ≠ []) as Hb
    by (unfold text; by destruct (pos_to_bytes _)).
  assert (json_unmarshal (text {["a" := 1%Z]}) = DecObj {["a" := 1%Z]})
    as Hdec by apply (int_unmarshal_marshal (Some {["a" := 1%Z]})).
  destruct (X11_open_loads_the_file location after_set _ _ Hmk Hholds Hb)
    as [Hobj _].
  destruct (Hobj _ Hdec) as (db & w' & Hopen & _ & _ & _ & Hc & _).
  split; [exact Hmk|]. split; [exact Hholds|]. split; [exact Hb|].
  split; [exact Hdec|]. exists db, w'. split; [exact Hopen|exact Hc].
Defined.

Lemma X13_open_reports_io_errors_witness :
  MkdirAll (Dir deep) guarded
  = inl (ErrPermission, set_dirs (λ _, {[ ["a"] ]}) guarded) ∧
  Open deep (World [] guarded : world Z)
  = Ok (None, Some ErrPermission)
       (World [] (set_dirs (λ _, {[ ["a"] ]}) guarded)) ∧
  MkdirAll (Dir location) location_is_dir = inr location_is_dir ∧
  ReadFile location location_is_dir = inl ErrIsDir ∧
  IsNotExist ErrIsDir = false ∧
  ∃ w', Open location (World [] location_is_dir : world Z)
        = Ok (None, Some ErrIsDir) w'.
Proof.
  assert (MkdirAll (Dir deep) guarded
          = inl (ErrPermission, set_dirs (λ _, {[ ["a"] ]}) guarded))
    as Hfail by (vm_compute; reflexivity).
  assert (MkdirAll (Dir location) location_is_dir = inr location_is_dir)
    as Hmk by (vm_compute; reflexivity).
  assert (ReadFile location location_is_dir = inl ErrIsDir) as Hread
    by (vm_compute; reflexivity).
  destruct (X13_open_reports_io_errors deep (World [] guarded : world Z)
              ErrPermission (or_introl (ex_intro _ _ Hfail)))
    as (w1 & Hopen1 & _ & _ & Hleft).
  destruct (Hleft _ Hfail) as [Hheap Hdisk].
  destruct (X13_open_reports_io_errors location
              (World [] location_is_dir : world Z) ErrIsDir
              (or_intror (ex_intro _ location_is_dir
                            (conj Hmk (conj Hread eq_refl)))))
    as (w' & Hopen & _).
  split; [exact Hfail|]. split.
  { destruct w1 as [h1 d1]. simpl in *. by subst. }
  split; [exact Hmk|]. split; [exact Hread|]. split; [reflexivity|].
  exists w'. exact Hopen.
Defined.

Lemma X15_open_again_witness :
  Open location initial = Ok (Some db0, None) opened ∧
  ∃ db2 w2, Open location opened = Ok (Some db2, None) w2 ∧
            disk w2 = disk opened ∧
            contents (heap w2) (data db2) = contents (heap opened) (data db0).
Proof.
  assert (Open location initial = Ok (Some db0, None) opened) as H
    by (vm_compute; reflexivity).
  destruct (X15_open_again db0 location initial opened H)
    as (db2 & w2 & Hopen & Hd & Hc & _).
  split; [exact H|]. exists db2, w2. repeat split; assumption.
Defined.

Lemma X16_clone_is_independent_witness :
  live after_set (data db0) ∧
  cloneMap (data db0) after_set
  = Ok (Some 1) (World [{["a" := 1%Z]}; {["a" := 1%Z]}] (disk after_set)) ∧
  Some 1 ≠ data db0 ∧
  contents [{["a" := 1%Z]}; {["a" := 1%Z]}] (Some 1)
  = contents (heap after_set) (data db0).
Proof.
  assert (live after_set (data db0)) as Hlive by (simpl; lia).
  assert (cloneMap (data db0) after_set
          = Ok (Some 1)
               (World [{["a" := 1%Z]}; {["a" := 1%Z]}] (disk after_set)))
    as H by (vm_compute; reflexivity).
  destruct (X16_clone_is_independent (data db0) after_set _ _ Hlive H)
    as (_ & Hne & _ & _ & _ & Hc & _).
  split; [exact Hlive|]. split; [exact H|]. split; [exact Hne|exact Hc].
Defined.

Lemma X17_null_file_gives_a_store_without_a_map_witness :
  MkdirAll (Dir location) with_null = inr with_null ∧
  holds with_null location null_text ∧
  null_text ≠ [] ∧
  json_unmarshal null_text = (DecNull : decoded Z) ∧
  ∃ db w', Open location (World [] with_null : world Z)
           = Ok (Some db, None) w' ∧
           DB_Set db "a" 1%Z w' = Panic.
Proof.
  assert (MkdirAll (Dir location) with_null = inr with_null) as Hmk
    by (vm_compute; reflexivity).
  assert (holds with_null location null_text) as Hholds.
  { split; [vm_compute; reflexivity|]. split; [vm_compute; reflexivity|].
    simpl. apply not_elem_of_empty. }
  assert (null_text ≠ []) as Hb
    by (unfold null_text; by destruct (pos_to_bytes _)).
  assert (json_unmarshal null_text = (DecNull : decoded Z)) as Hdec
    by apply (int_unmarshal_marshal None).
  destruct (X17_null_file_gives_a_store_without_a_map location
              (World [] with_null : world Z) _ _ Hmk Hholds Hb Hdec)
    as (db & w' & Hopen & _ & _ & Hset & _).
  split; [exact Hmk|]. split; [exact Hholds|]. split; [exact Hb|].
  split; [exact Hdec|]. exists db, w'. split; [exact Hopen|apply Hset].
Defined.

Import NumStore.

Lemma X14_failed_encoding_empties_the_file_witness :
  live NumStore.saved (data NumStore.db) ∧
  (effect (MSet "b" (None : num))
          (contents (heap NumStore.saved) (data NumStore.db))).2 = None ∧
  mutate NumStore.db (MSet "b" (None : num)) NumStore.saved
  = Ok (NumStore.db, Some ErrEncode) NumStore.wiped ∧
  files (disk NumStore.wiped) !! filepath NumStore.db = Some [] ∧
  ∃ db2 w2, Open (filepath NumStore.db) NumStore.wiped
            = Ok (Some db2, None) w2 ∧
            contents (heap w2) (data db2) = ∅.
Proof.
  assert (live NumStore.saved (data NumStore.db)) as Hlive
    by (simpl; lia).
  assert (mutate NumStore.db (MSet "b" (None : num)) NumStore.saved
          = Ok (NumStore.db, Some ErrEncode) NumStore.wiped) as Hmut
    by (vm_compute; reflexivity).
  destruct (X14_failed_encoding_empties_the_file NumStore.db
              (MSet "b" (None : num)) NumStore.saved NumStore.db
              NumStore.wiped Hlive eq_refl Hmut)
    as (_ & Hfile & Hopen).
  split; [exact Hlive|]. split; [reflexivity|]. split; [exact Hmut|].
  split; [exact Hfile|exact Hopen].
Defined.
